(** * Image optimizer plugin: cache, processor, utilities and orchestration

    A shallow embedding of [src/cache.js], [src/processor.js],
    [src/utils.js] and [src/plugin.js], followed by the properties of the
    specification that were checked against it.

    Conventions.
    - A JavaScript object used as a dictionary (node attributes, the Keyv
      store) is a [gmap]; a [Set] of strings is a [gset string].
    - Document nodes are objects with identity: a node is named by a
      number and its [attrs] live in a heap indexed by that number, so a
      node that occurs twice in a [content] array (as produced by
      [Array(5).fill(node)]) is one heap cell visited twice.
    - [Date.now()] is read from a clock oracle, one reading per call.
    - A thrown [Error] is the left injection of a sum, carrying the
      message.
    - The libraries the code calls ([node:path], Keyv, [file-type],
      [sharp], [Buffer]) are modelled as far as the code depends on
      them; what the file system holds and what [sharp] accepts are
      parameters. *)

From Stdlib Require Import ZArith QArith String Ascii List Lia.
From Stdlib Require Import Numbers.DecimalString.
From stdpp Require Import base gmap sets list strings.

Local Open Scope Z_scope.

(** Decimal rendering of an integer, as a template literal renders an
    integral number. *)
Definition Z_to_string (z : Z) : string := NilZero.string_of_int (Z.to_int z).

(** ** node:path (POSIX flavour)

    [path.resolve], [path.join], [path.dirname] and [path.parse] belong to
    the Node.js runtime, not to this repository; they are modelled on path
    segments. *)
Module Path.

Definition slash : ascii := "/"%char.

Definition is_slash (c : ascii) : bool := Ascii.eqb c slash.

(** [s.split("/")] *)
Fixpoint segments (s : string) : list string :=
  match s with
  | EmptyString => [EmptyString]
  | String c s' =>
      if is_slash c then EmptyString :: segments s'
      else match segments s' with
           | seg :: rest => String c seg :: rest
           | [] => [String c EmptyString]
           end
  end.

Fixpoint has_slash (s : string) : bool :=
  match s with
  | EmptyString => false
  | String c s' => is_slash c || has_slash s'
  end.

(** A segment that [normalizeString] keeps as it is: a name. *)
Definition is_name (s : string) : bool :=
  negb (String.eqb s "") && negb (String.eqb s ".")
  && negb (String.eqb s "..") && negb (has_slash s).

Definition isAbsolute (p : string) : bool :=
  match p with
  | String c _ => is_slash c
  | EmptyString => false
  end.

(** [normalizeString]: empty and [.] segments vanish, [..] removes the
    segment before it; above the top it is kept only when
    [allowAboveRoot]. The stack holds the result in reverse. *)
Fixpoint normalize_go (allowAboveRoot : bool) (stack segs : list string)
  : list string :=
  match segs with
  | [] => rev stack
  | s :: rest =>
      if String.eqb s "" || String.eqb s "." then
        normalize_go allowAboveRoot stack rest
      else if String.eqb s ".." then
        match stack with
        | top :: below =>
            if String.eqb top ".." then
              normalize_go allowAboveRoot
                (if allowAboveRoot then ".." :: stack else stack) rest
            else normalize_go allowAboveRoot below rest
        | [] =>
            normalize_go allowAboveRoot
              (if allowAboveRoot then [".."] else []) rest
        end
      else normalize_go allowAboveRoot (s :: stack) rest
  end.

Definition normalizeString (allowAboveRoot : bool) (segs : list string)
  : string :=
  String.concat "/" (normalize_go allowAboveRoot [] segs).

(** The right-to-left scan of [resolve]: arguments are taken from the
    last one until an absolute one is met; the working directory comes
    after the first argument. *)
Fixpoint resolve_scan (rargs : list string) : bool * list string :=
  match rargs with
  | [] => (false, [])
  | p :: rest =>
      if String.eqb p "" then resolve_scan rest
      else if isAbsolute p then (true, segments p)
      else let '(a, segs) := resolve_scan rest in (a, (segs ++ segments p)%list)
  end.

Definition resolve (cwd : string) (args : list string) : string :=
  let '(resolvedAbsolute, segs) := resolve_scan (rev args ++ [cwd])%list in
  let resolvedPath := normalizeString (negb resolvedAbsolute) segs in
  if resolvedAbsolute then "/" +:+ resolvedPath
  else if String.eqb resolvedPath "" then "." else resolvedPath.

Definition ends_with_slash (p : string) : bool :=
  match rev (list_ascii_of_string p) with
  | c :: _ => is_slash c
  | [] => false
  end.

Definition normalize (p : string) : string :=
  if String.eqb p "" then "." else
  let abs := isAbsolute p in
  let trailing := ends_with_slash p in
  let body := normalizeString (negb abs) (segments p) in
  if String.eqb body "" then
    (if abs then "/" else if trailing then "./" else ".")
  else
    let body' := if trailing then body +:+ "/" else body in
    if abs then "/" +:+ body' else body'.

Definition join (args : list string) : string :=
  match List.filter (fun a => negb (String.eqb a "")) args with
  | [] => "."
  | parts => normalize (String.concat "/" parts)
  end.

Fixpoint skip_slashes (l : list ascii) : list ascii :=
  match l with
  | c :: l' => if is_slash c then skip_slashes l' else l
  | [] => []
  end.

Fixpoint skip_name (l : list ascii) : list ascii :=
  match l with
  | c :: l' => if is_slash c then l else skip_name l'
  | [] => []
  end.

(** [dirname]: scanning from the end down to index 1, trailing slashes
    are skipped, then the last component, up to the slash before it. *)
Definition dirname (p : string) : string :=
  match list_ascii_of_string p with
  | [] => "."
  | c0 :: tl =>
      let hasRoot := is_slash c0 in
      match skip_name (skip_slashes (rev tl)) with
      | [] => if hasRoot then "/" else "."
      | _ :: before =>
          if hasRoot && Nat.eqb (List.length before) 0 then "//"
          else string_of_list_ascii (c0 :: rev before)
      end
  end.

Fixpoint take_name (l : list ascii) : list ascii :=
  match l with
  | c :: l' => if is_slash c then [] else c :: take_name l'
  | [] => []
  end.

(** [parse(p).base], reversed: the last component of [p]. *)
Definition rev_base (p : string) : list ascii :=
  match list_ascii_of_string p with
  | [] => []
  | c0 :: tl =>
      take_name (skip_slashes (rev (if is_slash c0 then tl else c0 :: tl)))
  end.

(** Splits a reversed base name at its last dot: the part before the dot
    (reversed), if there is a dot. *)
Fixpoint before_last_dot (l : list ascii) : option (list ascii) :=
  match l with
  | c :: l' => if Ascii.eqb c "."%char then Some l' else before_last_dot l'
  | [] => None
  end.

(** [parse(p).name]: the base name without its extension; a base name
    with no dot, with its only dot in front, or equal to [..] has no
    extension. *)
Definition parse_name (p : string) : string :=
  let rb := rev_base p in
  let base := string_of_list_ascii (rev rb) in
  match before_last_dot rb with
  | None => base
  | Some [] => base
  | Some stem =>
      if String.eqb base ".." then base
      else string_of_list_ascii (rev stem)
  end.

End Path.

(** ** src/cache.js

    The Keyv instance over an in-memory [Map] is a finite map from keys to
    entries. Keyv is given the same ttl and expires entries on its own
    account when they are read ([keyvExpired]), beside the test that
    [get] makes with [#isExpired]. Keys are strings; [now] is the value
    of [Date.now()] read by the operation. *)
Module Cache.

Record entry (V : Type) := Entry { value : V; timestamp : Z }.
Arguments Entry {V} _ _.
Arguments value {V} _.
Arguments timestamp {V} _.

Record t (V : Type) := Make {
  store : gmap string (entry V);   (* #store *)
  ttl : Z;                         (* #ttl *)
  size : Z                         (* #size *)
}.
Arguments Make {V} _ _ _.
Arguments store {V} _.
Arguments ttl {V} _.
Arguments size {V} _.

Section Ops.
Context {V : Type}.

Definition new (ttl : Z) : t V := Make ∅ ttl 0.

Definition isExpired (c : t V) (now timestamp : Z) : bool :=
  ttl c <? now - timestamp.

Definition set (now : Z) (key : string) (v : V) (c : t V) : t V :=
  Make (<[key := Entry v now]> (store c)) (ttl c) (size c + 1).

Definition delete (key : string) (c : t V) : bool * t V :=
  match store c !! key with
  | Some _ => (true, Make (base.delete key (store c)) (ttl c) (size c - 1))
  | None => (false, c)
  end.

(** Keyv is built with the same [ttl], so it keeps an expiry of its
    own beside each entry: the time of the [set] plus [ttl], and none
    when [ttl] is [0].  A read past that expiry makes Keyv drop the
    entry and answer [undefined]; [set] reads [Date.now()] for the
    timestamp and Keyv reads it for the expiry within the same
    millisecond, so the two deadlines coincide. *)
Definition keyvExpired (c : t V) (now timestamp : Z) : bool :=
  negb (ttl c =? 0) && (timestamp + ttl c <? now).

(** [None] is the [null] the method returns.  An entry that Keyv has
    expired is gone from the store when [get] returns at
    [if (!entry)], and [#size] is left as it was; the [#isExpired]
    branch, which goes through [delete] and counts down, is reached
    only for an entry that Keyv still returns. *)
Definition get (now : Z) (key : string) (c : t V) : option V * t V :=
  match store c !! key with
  | None => (None, c)
  | Some e =>
      if keyvExpired c now (timestamp e)
      then (None, Make (base.delete key (store c)) (ttl c) (size c))
      else if isExpired c now (timestamp e)
      then (None, snd (delete key c))
      else (Some (value e), c)
  end.

Definition has (now : Z) (key : string) (c : t V) : bool * t V :=
  let '(r, c') := get now key c in
  (match r with Some _ => true | None => false end, c').

Definition clear (c : t V) : t V := Make ∅ (ttl c) 0.

End Ops.

End Cache.

(** ** src/processor.js *)
Module Processor.

(** The options as the processor reads them.  Widths and quality are
    integers here; the fractional ones that [validateOptions] lets
    through are left out. *)
Record size_spec := Size { size_width : Z; size_suffix : string }.

Record options := Options {
  publicPath : string;
  formats : list string;
  quality : Z;
  sizes : list size_spec
}.

Record metadata := Metadata { meta_width : Z; meta_height : Z }.

(** What the file system holds at a path, as seen through
    [fileTypeFromFile] and [sharp(...).metadata()]. *)
Record image_file := ImageFile {
  file_ext : option string;    (* [type.ext]; [None] when undetected *)
  file_meta : metadata
}.

Record variant := Variant {
  variant_width : Z;
  variant_height : Z;
  variant_format : string;
  variant_path : string;
  variant_url : string
}.

Record result := Result {
  srcset : string;
  result_sizes : string;
  width : Z;
  height : Z;
  format : string;
  variants : list variant
}.

(** The outside world of the processor, which is not code of this
    repository.  [read] is a path seen through [fileTypeFromFile] and
    [sharp(...).metadata()]: it throws (missing file, decoder failure)
    with a message, or yields the file.  [toFile] is [sharp]'s
    [clone().resize(...)], encoder and [toFile(outputPath)] for one
    variant of a source at a quality: [Some msg] when any of them
    throws, as [sharp] does for a width or height that is not a positive
    integer, a quality outside 1..100 or an output directory it cannot
    write to, and [None] when the file is written. *)
Record filesystem := Filesystem {
  read :> string -> string + image_file;
  toFile : string -> Z -> variant -> option string
}.

(** [Math.round(a / b)] for integers [a] and [b > 0]: the nearest
    integer, halves rounded up. *)
Definition round_div (a b : Z) : Z := (2 * a + b) / (2 * b).

(** The object [#createVariant] returns when it returns; its call of
    [sharp], which can throw, is the [toFile] step of [pushVariant]. *)
Definition createVariant (opts : options) (meta : metadata)
    (name : string) (size : size_spec) (format outputDir : string)
  : variant :=
  let targetWidth := size_width size in
  let width := Z.min targetWidth (meta_width meta) in
  let height := round_div (meta_height meta * width) (meta_width meta) in
  let filename := name +:+ "-" +:+ size_suffix size +:+ "." +:+ format in
  let outputPath := Path.join [outputDir; filename] in
  Variant width height format outputPath
          (publicPath opts +:+ "/" +:+ filename).

(** One turn of the inner loop: [await this.#createVariant(...)], then
    [variants.push(variant)]. *)
Definition pushVariant (opts : options) (fs : filesystem)
    (meta : metadata) (imagePath name outputDir : string)
    (size : size_spec) (format : string) (variants : list variant)
  : string + list variant :=
  let variant := createVariant opts meta name size format outputDir in
  match toFile fs imagePath (quality opts) variant with
  | Some msg => inl msg
  | None => inr (variants ++ [variant])%list
  end.

(** [for (const format of this.options.formats)] *)
Fixpoint forFormats (opts : options) (fs : filesystem)
    (meta : metadata) (imagePath name outputDir : string)
    (size : size_spec) (fmts : list string) (variants : list variant)
  : string + list variant :=
  match fmts with
  | [] => inr variants
  | format :: rest =>
      match pushVariant opts fs meta imagePath name outputDir size format
                        variants with
      | inl msg => inl msg
      | inr variants' =>
          forFormats opts fs meta imagePath name outputDir size rest
                     variants'
      end
  end.

(** [for (const size of this.options.sizes)] *)
Fixpoint forSizes (opts : options) (fs : filesystem)
    (meta : metadata) (imagePath name outputDir : string)
    (szs : list size_spec) (variants : list variant)
  : string + list variant :=
  match szs with
  | [] => inr variants
  | size :: rest =>
      match forFormats opts fs meta imagePath name outputDir size
                       (formats opts) variants with
      | inl msg => inl msg
      | inr variants' =>
          forSizes opts fs meta imagePath name outputDir rest variants'
      end
  end.

Definition generateVariants (opts : options) (fs : filesystem)
    (meta : metadata) (imagePath outputDir : string)
  : string + list variant :=
  let name := Path.parse_name imagePath in
  forSizes opts fs meta imagePath name outputDir (sizes opts) [].

Definition generateSrcset (vs : list variant) : string :=
  String.concat ", "
    (map (fun v => variant_url v +:+ " "
                   +:+ Z_to_string (variant_width v) +:+ "w") vs).

Definition breakpoints : list (Z * string) :=
  [(640, "100vw"); (1024, "50vw"); (1920, "33vw")].

Definition generateSizes (vs : list variant) : string :=
  String.concat ", "
    (map (fun '(max, size) =>
            "(max-width: " +:+ Z_to_string max +:+ "px) " +:+ size)
         breakpoints ++ ["100vw"])%list.

Definition supported : list string := ["jpg"; "jpeg"; "png"; "webp"; "avif"].

Definition includes (l : list string) (x : string) : bool :=
  existsb (String.eqb x) l.

Definition process (opts : options) (fs : filesystem)
    (imagePath outputDir : string) : string + result :=
  match fs imagePath with
  | inl msg => inl msg
  | inr file =>
      match file_ext file with
      | Some ext =>
          if includes supported ext then
            match generateVariants opts fs (file_meta file)
                                   imagePath outputDir with
            | inl msg => inl msg
            | inr vs =>
                inr (Result (generateSrcset vs) (generateSizes vs)
                            (meta_width (file_meta file))
                            (meta_height (file_meta file)) ext vs)
            end
          else
            inl ("Unsupported image type: "
                 +:+ (if String.eqb ext "" then "unknown" else ext))
      | None => inl "Unsupported image type: unknown"
      end
  end.

End Processor.

(** ** src/utils.js *)
Module Utils.

(** Attribute values of a document node: strings and integral numbers
    below 10^21 in size, which a template literal writes out in full
    ([Z_to_string]); from there on JavaScript writes a number with an
    exponent. An absent key reads as [undefined]. *)
Inductive attr_value := AStr (s : string) | ANum (z : Z).

Abbreviation attrs := (gmap string attr_value).

Definition attr_truthy (v : option attr_value) : bool :=
  match v with
  | Some (AStr s) => negb (String.eqb s "")
  | Some (ANum z) => negb (z =? 0)
  | None => false
  end.

(** [`${v}`] *)
Definition attr_to_string (v : attr_value) : string :=
  match v with
  | AStr s => s
  | ANum z => Z_to_string z
  end.

(** [node.type === "image" && node.attrs?.src], as a condition. A node
    without [attrs] is given the empty attribute map. *)
Definition isImageNode (type : string) (a : attrs) : bool :=
  String.eqb type "image" && attr_truthy (a !! "src").

Record context := Context { resourcePath : string; currentFile : string }.

(** [src.slice(1)] *)
Definition slice1 (s : string) : string :=
  match s with
  | String _ s' => s'
  | EmptyString => EmptyString
  end.

(** The directory that sources with a leading separator are resolved
    in: [public], next to the resource path. *)
Definition publicRoot (cwd : string) (ctx : context) : string :=
  Path.resolve cwd [resourcePath ctx; ".."; "public"].

(** [cwd] is [process.cwd()], which [path.resolve] falls back on. A
    [src] that is not a string has no [startsWith] method. *)
Definition resolvePublicPath (cwd : string) (src : attr_value)
    (ctx : context) : string + string :=
  match src with
  | ANum _ => inl "src.startsWith is not a function"
  | AStr s =>
      if String.prefix "/" s then
        inr (Path.resolve cwd [resourcePath ctx; ".."; "public"; slice1 s])
      else
        let currentDir := Path.dirname (currentFile ctx) in
        inr (Path.resolve cwd [currentDir; s])
  end.

(** *** Option values

    Scalar options are primitive JavaScript values.  The values of
    type number are the finite ones, given as rationals, [NaN] and the
    two infinities.  [formats] and [sizes] are either such a primitive
    or an array (of strings, of size objects). *)
Inductive jsval :=
| VUndefined
| VNull
| VBool (b : bool)
| VNum (q : Q)
| VNaN
| VInfinity (negative : bool)
| VStr (s : string).

Inductive field (A : Type) :=
| Prim (v : jsval)
| Arr (l : list A).
Arguments Prim {A} _.
Arguments Arr {A} _.

Record size_option := SizeOption { width : jsval; suffix : jsval }.

Record options := Options {
  outputDir : jsval;
  publicPath : jsval;
  formats : field string;
  quality : jsval;
  sizes : field size_option;
  concurrency : jsval;
  cacheTimeout : jsval
}.

Definition truthy (v : jsval) : bool :=
  match v with
  | VUndefined | VNull | VNaN => false
  | VBool b => b
  | VNum q => negb (Qeq_bool q 0)
  | VInfinity _ => true
  | VStr s => negb (String.eqb s "")
  end.

Definition Qlt_bool (x y : Q) : bool := negb (Qle_bool y x).

(** [typeof v !== "number" || v < lo]; every comparison with [NaN] is
    false. *)
Definition not_number_or_below (v : jsval) (lo : Q) : bool :=
  match v with
  | VNum q => Qlt_bool q lo
  | VNaN => false
  | VInfinity negative => negative
  | _ => true
  end.

(** [v > hi], for a [v] of type number. *)
Definition above (v : jsval) (hi : Q) : bool :=
  match v with
  | VNum q => Qlt_bool hi q
  | VInfinity negative => negb negative
  | _ => false
  end.

Definition is_undefined (v : jsval) : bool :=
  match v with VUndefined => true | _ => false end.

Definition validFormats : list string := ["webp"; "avif"; "jpeg"; "png"].

(** The first size that throws decides the error, as in [forEach]. *)
Fixpoint validateSizes (l : list size_option) : string + unit :=
  match l with
  | [] => inr tt
  | size :: rest =>
      if negb (truthy (width size)) || negb (truthy (suffix size)) then
        inl "Each size must have width and suffix"
      else if not_number_or_below (width size) 1 then
        inl "Size width must be a positive number"
      else validateSizes rest
  end.

Definition validateOptions (o : options) : string + unit :=
  if negb (truthy (outputDir o)) then inl "outputDir is required"
  else if negb (truthy (publicPath o)) then inl "publicPath is required"
  else
    match
      match formats o with
      | Arr [] => inl "At least one output format is required"
      | Arr l => inr l
      | Prim (VStr s) =>
          if String.eqb s "" then
            inl "At least one output format is required"
          else inl "formats.filter is not a function"
      | Prim _ => inl "At least one output format is required"
      end
    with
    | inl msg => inl msg
    | inr l =>
        let invalidFormats :=
          List.filter (fun f => negb (existsb (String.eqb f) validFormats))
                      l in
        if negb (Nat.eqb (List.length invalidFormats) 0) then
          inl ("Invalid formats: " +:+ String.concat ", " invalidFormats)
        else if negb (is_undefined (quality o))
                && (not_number_or_below (quality o) 1
                    || above (quality o) 100) then
          inl "Quality must be a number between 1 and 100"
        else
          match
            match sizes o with
            | Prim v => if truthy v then inl "Sizes must be an array"
                        else inr tt
            | Arr l => validateSizes l
            end
          with
          | inl msg => inl msg
          | inr _ =>
              if negb (is_undefined (concurrency o))
                 && not_number_or_below (concurrency o) 1 then
                inl "Concurrency must be a positive number"
              else inr tt
          end
    end.

(** The options that [validateOptions] reads, in the order in which it
    checks them. *)
Inductive option_name :=
| OutputDir | PublicPath | Formats | Quality | Sizes | Concurrency.

Definition name_of (k : option_name) : string :=
  match k with
  | OutputDir => "outputDir"
  | PublicPath => "publicPath"
  | Formats => "formats"
  | Quality => "quality"
  | Sizes => "sizes"
  | Concurrency => "concurrency"
  end.

Definition rank (k : option_name) : nat :=
  match k with
  | OutputDir => 0
  | PublicPath => 1
  | Formats => 2
  | Quality => 3
  | Sizes => 4
  | Concurrency => 5
  end.

(** A value of type number that is [lo] or more. *)
Definition number_from (lo : Q) (v : jsval) : Prop :=
  (exists q, v = VNum q /\ (lo <= q)%Q) \/ v = VInfinity false.

Definition valid_size (size : size_option) : Prop :=
  truthy (suffix size) = true /\ number_from 1 (width size).

(** What passes for each option, said declaratively. *)
Definition accepts (o : options) (k : option_name) : Prop :=
  match k with
  | OutputDir => truthy (outputDir o) = true
  | PublicPath => truthy (publicPath o) = true
  | Formats =>
      exists l, formats o = Arr l /\ l <> []
                /\ Forall (fun f => In f validFormats) l
  | Quality =>
      quality o = VUndefined \/ quality o = VNaN
      \/ exists q, quality o = VNum q /\ (1 <= q)%Q /\ (q <= 100)%Q
  | Sizes =>
      match sizes o with
      | Prim v => truthy v = false
      | Arr l => Forall valid_size l
      end
  | Concurrency =>
      concurrency o = VUndefined \/ concurrency o = VNaN
      \/ number_from 1 (concurrency o)
  end.

Definition valid (o : options) : Prop :=
  accepts o OutputDir /\ accepts o PublicPath /\ accepts o Formats
  /\ accepts o Quality /\ accepts o Sizes /\ accepts o Concurrency.

(** Whether a message has the word of an option in it: its name
    without the plural ending, whatever the case of the letters. *)
Definition lower (c : ascii) : ascii :=
  let n := nat_of_ascii c in
  if ((65 <=? n) && (n <=? 90))%nat then ascii_of_nat (n + 32) else c.

Fixpoint lowercase (s : string) : string :=
  match s with
  | EmptyString => EmptyString
  | String c s' => String (lower c) (lowercase s')
  end.

Fixpoint contains (x s : string) : bool :=
  String.prefix x s
  || match s with
     | EmptyString => false
     | String _ s' => contains x s'
     end.

Fixpoint singular (s : string) : string :=
  match s with
  | EmptyString => EmptyString
  | String c EmptyString => if Ascii.eqb c "s" then EmptyString else s
  | String c s' => String c (singular s')
  end.

Definition mentions (name msg : string) : bool :=
  contains (lowercase (singular name)) (lowercase msg).

(** The messages of [validateOptions], each with the option it is
    about; the message for invalid formats goes on with their names. *)
Definition error_table : list (string * string) :=
  [("outputDir", "outputDir is required");
   ("publicPath", "publicPath is required");
   ("formats", "At least one output format is required");
   ("formats", "formats.filter is not a function");
   ("formats", "Invalid formats: ");
   ("quality", "Quality must be a number between 1 and 100");
   ("sizes", "Sizes must be an array");
   ("sizes", "Each size must have width and suffix");
   ("sizes", "Size width must be a positive number");
   ("concurrency", "Concurrency must be a positive number")].

(** *** Construction ([constructor] of [ImageOptimizerPlugin])

    The options given by the caller; [None] is a key that is absent, so
    that the default applies. A key that is present overrides the
    default, also with [undefined]. *)
Record user_options := UserOptions {
  user_outputDir : option jsval;
  user_publicPath : option jsval;
  user_formats : option (field string);
  user_quality : option jsval;
  user_sizes : option (field size_option);
  user_concurrency : option jsval;
  user_cacheTimeout : option jsval
}.

Definition no_options : user_options :=
  UserOptions None None None None None None None.

Definition defaults : options :=
  Options (VStr ".image-cache") (VStr "/images") (Arr ["webp"])
          (VNum (inject_Z 80))
          (Arr [SizeOption (VNum (inject_Z 640)) (VStr "sm");
                SizeOption (VNum (inject_Z 1024)) (VStr "md");
                SizeOption (VNum (inject_Z 1920)) (VStr "lg")])
          (VNum (inject_Z 4))
          (VNum (inject_Z (7 * 24 * 60 * 60 * 1000))).

(** [{ ...defaults, ...options }] *)
Definition merge (u : user_options) : options :=
  Options (default (outputDir defaults) (user_outputDir u))
          (default (publicPath defaults) (user_publicPath u))
          (default (formats defaults) (user_formats u))
          (default (quality defaults) (user_quality u))
          (default (sizes defaults) (user_sizes u))
          (default (concurrency defaults) (user_concurrency u))
          (default (cacheTimeout defaults) (user_cacheTimeout u)).

(** The constructor up to the creation of the queue: it returns the
    effective options, or the message of the error thrown. [PQueue]
    itself refuses a [concurrency] that is not a number from 1 up
    ([!(typeof c === "number" && c >= 1)]); past [validateOptions] that
    is the case of an explicit [undefined] and of [NaN]. *)
Definition construct (u : user_options) : string + options :=
  let o := merge u in
  match validateOptions o with
  | inl msg => inl msg
  | inr _ =>
      match concurrency o with
      | VUndefined =>
          inl "Expected `concurrency` to be a number from 1 and up, got `undefined` (undefined)"
      | VNaN =>
          inl "Expected `concurrency` to be a number from 1 and up, got `NaN` (number)"
      | _ => inr o
      end
  end.

End Utils.

(** ** src/plugin.js *)
Module Plugin.
Import Utils.

(** A document node: its identity, its [type] and its [content]
    ([None] when the property is absent). Its [attrs] are in the heap
    of the world, under [node_id]. *)
#[local] Unset Elimination Schemes.
Inductive node :=
| Node (node_id : nat) (type : string) (content : option (list node)).
#[local] Set Elimination Schemes.

Definition node_id (n : node) : nat := let '(Node i _ _) := n in i.
Definition type (n : node) : string := let '(Node _ t _) := n in t.
Definition content (n : node) : option (list node) :=
  let '(Node _ _ c) := n in c.

(** The validated configuration the instance runs with. *)
Record options := Options {
  outputDir : string;
  processorOptions : Processor.options;
  concurrency : Z;
  cacheTimeout : Z
}.

Record error_record := ErrorRecord { message : string }.

Record world := World {
  heap : gmap nat attrs;          (* [attrs] of every node object *)
  cache : Cache.t attrs;          (* #cache *)
  processed : gset string;        (* #processed *)
  errors : list error_record;     (* context.errors *)
  calls : list string;            (* paths given to ImageProcessor.process,
                                     oldest first *)
  ticks : nat                     (* readings of [Date.now()] so far *)
}.

(** The state after [new ImageOptimizerPlugin(options)], with the
    documents of [h] and an empty error collector. *)
Definition init (o : options) (h : gmap nat attrs) : world :=
  World h (Cache.new (cacheTimeout o)) ∅ [] [] 0.

Definition attrs_of (w : world) (i : nat) : attrs := default ∅ (heap w !! i).

Definition set_attrs (i : nat) (a : attrs) (w : world) : world :=
  World (<[i := a]> (heap w)) (cache w) (processed w) (errors w)
        (calls w) (ticks w).

(** [this.addError(context, message)], inherited from the collector's
    [ProcessorPlugin]: the record is appended to [context.errors]. *)
Definition addError (msg : string) (w : world) : world :=
  World (heap w) (cache w) (processed w)
        (errors w ++ [ErrorRecord msg])%list (calls w) (ticks w).

Definition processed_has (src : attr_value) (w : world) : bool :=
  match src with
  | AStr s => bool_decide (s ∈ processed w)
  | ANum _ => false
  end.

Definition processed_add (src : attr_value) (w : world) : world :=
  match src with
  | AStr s =>
      World (heap w) (cache w) ({[s]} ∪ processed w) (errors w)
            (calls w) (ticks w)
  | ANum _ => w
  end.

Definition log_call (imagePath : string) (w : world) : world :=
  World (heap w) (cache w) (processed w) (errors w)
        (calls w ++ [imagePath])%list (ticks w).

Section Run.
Variable cwd : string.                  (* process.cwd() *)
Variable fs : Processor.filesystem.     (* the files on disk *)
Variable clock : nat -> Z.              (* n-th reading of Date.now() *)
Variable opts : options.                (* this.options *)

(** [await this.#cache.get(key)]: the clock is read only when the
    store has an entry for the key. *)
Definition cache_get (key : string) (w : world) : option attrs * world :=
  match Cache.store (cache w) !! key with
  | None => (None, w)
  | Some _ =>
      let '(r, c) := Cache.get (clock (ticks w)) key (cache w) in
      (r, World (heap w) c (processed w) (errors w) (calls w)
                (S (ticks w)))
  end.

Definition cache_has (key : string) (w : world) : bool * world :=
  let '(r, w') := cache_get key w in
  (match r with Some _ => true | None => false end, w').

Definition cache_set (key : string) (v : attrs) (w : world) : world :=
  World (heap w) (Cache.set (clock (ticks w)) key v (cache w))
        (processed w) (errors w) (calls w) (S (ticks w)).

(** [{...a, ...cachedData}]; spreading [null] adds nothing. *)
Definition spread (a : attrs) (cachedData : option attrs) : attrs :=
  match cachedData with
  | Some d => d ∪ a
  | None => a
  end.

(** [{...a, srcset, sizes, width, height, originalSrc: src}] *)
Definition processed_attrs (a : attrs) (r : Processor.result)
    (src : attr_value) : attrs :=
  <["originalSrc" := src]>
    (<["height" := ANum (Processor.height r)]>
      (<["width" := ANum (Processor.width r)]>
        (<["sizes" := AStr (Processor.result_sizes r)]>
          (<["srcset" := AStr (Processor.srcset r)]> a)))).

(** The body of the [try] block of [#processImage]: [inl msg] when it
    throws. The queued job runs at once: the traversal awaits every
    image before it visits the next node, so the queue is idle when
    the job is added. *)
Definition processImage_try (i : nat) (src : attr_value) (ctx : context)
    (w : world) : (string + unit) * world :=
  match resolvePublicPath cwd src ctx with
  | inl msg => (inl msg, w)
  | inr imagePath =>
      let cacheKey := "image:" +:+ imagePath in
      let '(hasCached, w1) := cache_has cacheKey w in
      if hasCached then
        let '(cachedData, w2) := cache_get cacheKey w1 in
        (inr tt, set_attrs i (spread (attrs_of w2 i) cachedData) w2)
      else
        let w2 := log_call imagePath w1 in
        match
          Processor.process (processorOptions opts) fs imagePath
            (Path.join [resourcePath ctx; ".."; outputDir opts])
        with
        | inl msg => (inl msg, w2)
        | inr variants =>
            let attrs := processed_attrs (attrs_of w2 i) variants src in
            let w3 := cache_set cacheKey attrs w2 in
            let w4 := processed_add src w3 in
            (inr tt, set_attrs i attrs w4)
        end
  end.

Definition processImage (i : nat) (ctx : context) (w : world) : world :=
  match attrs_of w i !! "src" with
  | None => w
  | Some src =>
      if negb (attr_truthy (Some src)) || processed_has src w then w
      else
        match processImage_try i src ctx w with
        | (inr _, w') => w'
        | (inl msg, w') =>
            addError ("Failed to process image " +:+ attr_to_string src
                      +:+ ": " +:+ msg) w'
        end
  end.

Fixpoint processNode (n : node) (ctx : context) (w : world) : world :=
  let '(Node i t c) := n in
  let w1 := if isImageNode t (attrs_of w i) then processImage i ctx w
            else w in
  match c with
  | None => w1
  | Some children =>
      (fix each (l : list node) (w : world) : world :=
         match l with
         | [] => w
         | child :: l' => each l' (processNode child ctx w)
         end) children w1
  end.

(** [None] is a [null] or [undefined] argument. Nothing inside
    [#processNode] throws on a well-formed tree, so the [catch] of
    [processContent] is never entered. *)
Definition processContent (content : option node) (ctx : context)
    (w : world) : option node * world :=
  match content with
  | None => (content, w)
  | Some doc =>
      if negb (String.eqb (type doc) "doc") then (content, w)
      else (content, processNode doc ctx w)
  end.

(** The ways the [try] block throws for a [src]: in path resolution,
    or in the processor (type detection, variant generation); with
    the message thrown and the world at that point. *)
Inductive throws (src : attr_value) (ctx : context) (w : world)
  : string -> world -> Prop :=
| throws_resolution detail :
    resolvePublicPath cwd src ctx = inl detail ->
    throws src ctx w detail w
| throws_process imagePath detail w1 :
    resolvePublicPath cwd src ctx = inr imagePath ->
    cache_has ("image:" +:+ imagePath) w = (false, w1) ->
    Processor.process (processorOptions opts) fs imagePath
      (Path.join [resourcePath ctx; ".."; outputDir opts]) = inl detail ->
    throws src ctx w detail (log_call imagePath w1).

(** *** The traversal as a sequence of visits

    [#processNode] reaches the nodes of a tree in document order;
    [visits] lists them, each with its identity and type. *)
Definition visit (ctx : context) (v : nat * string) (w : world) : world :=
  if isImageNode (snd v) (attrs_of w (fst v))
  then processImage (fst v) ctx w else w.

Definition processVisits (ctx : context) (l : list (nat * string))
    (w : world) : world :=
  fold_left (fun w v => visit ctx v w) l w.

End Run.

Fixpoint visits (n : node) : list (nat * string) :=
  let '(Node i t c) := n in
  (i, t) :: match c with
            | None => []
            | Some children => flat_map visits children
            end.

End Plugin.

(** ** Sequences of cache operations *)
Module CacheTrace.

Inductive op (V : Type) :=
| OpSet (now : Z) (key : string) (v : V)
| OpGet (now : Z) (key : string)
| OpHas (now : Z) (key : string)
| OpDelete (key : string)
| OpClear.
Arguments OpSet {V} _ _ _.
Arguments OpGet {V} _ _.
Arguments OpHas {V} _ _.
Arguments OpDelete {V} _.
Arguments OpClear {V}.

(** The cache after one call. *)
Definition step {V : Type} (o : op V) (c : Cache.t V) : Cache.t V :=
  match o with
  | OpSet now key v => Cache.set now key v c
  | OpGet now key => snd (Cache.get now key c)
  | OpHas now key => snd (Cache.has now key c)
  | OpDelete key => snd (Cache.delete key c)
  | OpClear => Cache.clear c
  end.

Definition run {V : Type} (ops : list (op V)) (c : Cache.t V) : Cache.t V :=
  fold_left (fun c o => step o c) ops c.

End CacheTrace.

(** ** src/utils.js: [generateImageId]

    [Buffer.from(imagePath).toString("base64url")] in its two steps.
    [Buffer.from] encodes the JavaScript string, a sequence of UTF-16
    code units, in UTF-8; it is [Buffer_from], which is not one-to-one:
    a surrogate without its partner becomes U+FFFD.  [toString] writes
    the bytes in base 64 with the URL-safe alphabet and without padding;
    it is [generateImageId], whose argument is the path as its UTF-8
    bytes.  [generateImageId_js] is the two together. *)
Module ImageId.

Definition alphabet : list ascii :=
  list_ascii_of_string
    "ABCDEFGHIJKLMNOPQRSTUVWXYZabcdefghijklmnopqrstuvwxyz0123456789-_".

Definition digit (n : N) : ascii := nth (N.to_nat n) alphabet "A"%char.

Fixpoint encode (bytes : list N) : list ascii :=
  match bytes with
  | [] => []
  | [b0] => [digit (b0 / 4); digit ((b0 mod 4) * 16)]
  | [b0; b1] =>
      [digit (b0 / 4); digit ((b0 mod 4) * 16 + b1 / 16);
       digit ((b1 mod 16) * 4)]
  | b0 :: b1 :: b2 :: rest =>
      digit (b0 / 4) :: digit ((b0 mod 4) * 16 + b1 / 16)
      :: digit ((b1 mod 16) * 4 + b2 / 64) :: digit (b2 mod 64)
      :: encode rest
  end%N.

(** The bytes of a byte string, as numbers. *)
Definition bytes_of (s : string) : list N :=
  map N_of_ascii (list_ascii_of_string s).

(** [toString("base64url")] of the buffer holding the bytes
    [imagePath]. *)
Definition generateImageId (imagePath : string) : string :=
  string_of_list_ascii (encode (bytes_of imagePath)).

(** *** From a JavaScript string to its UTF-8 bytes *)

Definition is_high (u : N) : bool := ((55296 <=? u) && (u <=? 56319))%N.

Definition is_low (u : N) : bool := ((56320 <=? u) && (u <=? 57343))%N.

(** The code points of a sequence of code units: a high surrogate and
    the low one after it make one code point from 65536 up; any other
    surrogate is read as U+FFFD (65533). *)
Fixpoint code_points (units : list N) : list N :=
  match units with
  | [] => []
  | u :: rest =>
      if is_high u then
        match rest with
        | l :: rest' =>
            if is_low l then
              (65536 + (u - 55296) * 1024 + (l - 56320))%N
              :: code_points rest'
            else 65533%N :: code_points rest
        | [] => [65533%N]
        end
      else if is_low u then 65533%N :: code_points rest
      else u :: code_points rest
  end.

(** The one to four bytes of a code point. *)
Definition utf8 (c : N) : list N :=
  (if c <? 128 then [c]
   else if c <? 2048 then [192 + c / 64; 128 + c mod 64]
   else if c <? 65536 then
     [224 + c / 4096; 128 + (c / 64) mod 64; 128 + c mod 64]
   else
     [240 + c / 262144; 128 + (c / 4096) mod 64; 128 + (c / 64) mod 64;
      128 + c mod 64])%N.

(** [Buffer.from(imagePath)], as the byte string. *)
Definition Buffer_from (units : list N) : string :=
  string_of_list_ascii (map ascii_of_N (flat_map utf8 (code_points units))).

Definition generateImageId_js (units : list N) : string :=
  generateImageId (Buffer_from units).

(** A string in which every surrogate is half of a pair. *)
Fixpoint well_formed (units : list N) : bool :=
  match units with
  | [] => true
  | u :: rest =>
      if is_high u then
        match rest with
        | l :: rest' => is_low l && well_formed rest'
        | [] => false
        end
      else negb (is_low u) && (u <? 65536)%N && well_formed rest
  end.

(** The readings of UTF-8 bytes and of code points, used to show what
    the encoding keeps apart. *)
Fixpoint read_utf8 (bytes : list N) : list N :=
  match bytes with
  | [] => []
  | b0 :: rest =>
      if (b0 <? 128)%N then b0 :: read_utf8 rest
      else if (b0 <? 224)%N then
        match rest with
        | b1 :: rest' => ((b0 - 192) * 64 + (b1 - 128))%N :: read_utf8 rest'
        | _ => []
        end
      else if (b0 <? 240)%N then
        match rest with
        | b1 :: b2 :: rest' =>
            ((b0 - 224) * 4096 + (b1 - 128) * 64 + (b2 - 128))%N
            :: read_utf8 rest'
        | _ => []
        end
      else
        match rest with
        | b1 :: b2 :: b3 :: rest' =>
            ((b0 - 240) * 262144 + (b1 - 128) * 4096 + (b2 - 128) * 64
             + (b3 - 128))%N :: read_utf8 rest'
        | _ => []
        end
  end.

Definition units_of (c : N) : list N :=
  (if c <? 65536 then [c]
   else [55296 + (c - 65536) / 1024; 56320 + (c - 65536) mod 1024])%N.

(** *** Reading an identifier

    Used to show that the base 64 text loses no byte. *)
Fixpoint index_of (c : ascii) (l : list ascii) : option N :=
  match l with
  | [] => None
  | x :: l' => if Ascii.eqb c x then Some 0%N
               else option_map N.succ (index_of c l')
  end.

Definition value_of (c : ascii) : option N := index_of c alphabet.

Fixpoint decode (chars : list ascii) : option (list N) :=
  match chars with
  | [] => Some []
  | [_] => None
  | [c0; c1] =>
      match value_of c0, value_of c1 with
      | Some a, Some b => Some [a * 4 + b / 16]
      | _, _ => None
      end
  | [c0; c1; c2] =>
      match value_of c0, value_of c1, value_of c2 with
      | Some a, Some b, Some c =>
          Some [a * 4 + b / 16; (b mod 16) * 16 + c / 4]
      | _, _, _ => None
      end
  | c0 :: c1 :: c2 :: c3 :: rest =>
      match value_of c0, value_of c1, value_of c2, value_of c3,
            decode rest with
      | Some a, Some b, Some c, Some d, Some bytes =>
          Some (a * 4 + b / 16 :: (b mod 16) * 16 + c / 4
                :: (c mod 4) * 64 + d :: bytes)
      | _, _, _, _, _ => None
      end
  end%N.

End ImageId.

(** ** What a visit of an image node can do *)
Module Invariant.
Import Utils Plugin.

Definition processedFields : list string :=
  ["srcset"; "sizes"; "width"; "height"; "originalSrc"].

(** An attribute map with all the processed fields. *)
Definition complete (a : attrs) : Prop :=
  Forall (fun k => is_Some (a !! k)) processedFields.

(** Every cached attribute map has the processed fields and a source,
    which is a non-empty string in the processed set. *)
Definition cache_wf (w : world) : Prop :=
  forall key e,
    Cache.store (cache w) !! key = Some e ->
    complete (Cache.value e)
    /\ exists s, Cache.value e !! "src" = Some (AStr s)
                 /\ s <> "" /\ s ∈ processed w.

Definition failure_record (r : error_record) : Prop :=
  String.prefix "Failed to process image " (message r) = true.

(** The nodes of type ["image"] among the visited ones. *)
Definition image_visits (l : list (nat * string)) : nat :=
  length (List.filter (fun v => String.eqb (snd v) "image") l).

(** The nodes that [processContent] visits. *)
Definition content_visits (content : option node) : list (nat * string) :=
  match content with
  | None => []
  | Some doc => if String.eqb (type doc) "doc" then visits doc else []
  end.

(** The three ways a call of [#processImage] ends: nothing is written
    to any node (early return, failure, or a cache entry that expired
    between the two reads); the node is merged with a cache entry; the
    node is generated and the result cached. *)
Inductive outcome (i : nat) (w w' : world) : Prop :=
| Untouched (new_errors : list error_record) (new_calls : list string) :
    (forall j, attrs_of w' j = attrs_of w j) ->
    processed w' = processed w ->
    (forall key e, Cache.store (cache w') !! key = Some e ->
                   Cache.store (cache w) !! key = Some e) ->
    errors w' = errors w ++ new_errors ->
    (length new_errors <= 1)%nat ->
    Forall failure_record new_errors ->
    calls w' = calls w ++ new_calls ->
    (length new_calls <= 1)%nat ->
    outcome i w w'
| Merged (key : string) (e : Cache.entry attrs) :
    Cache.store (cache w) !! key = Some e ->
    attrs_of w' i = Cache.value e ∪ attrs_of w i ->
    (forall j, j <> i -> attrs_of w' j = attrs_of w j) ->
    processed w' = processed w ->
    cache w' = cache w ->
    errors w' = errors w ->
    calls w' = calls w ->
    outcome i w w'
| Generated (s key imagePath : string) (r : Processor.result) (T : Z) :
    attrs_of w i !! "src" = Some (AStr s) ->
    s <> "" ->
    attrs_of w' i = processed_attrs (attrs_of w i) r (AStr s) ->
    (forall j, j <> i -> attrs_of w' j = attrs_of w j) ->
    processed w' = {[s]} ∪ processed w ->
    Cache.store (cache w') !! key = Some (Cache.Entry (attrs_of w' i) T) ->
    (forall key' e, key' <> key ->
                    Cache.store (cache w') !! key' = Some e ->
                    Cache.store (cache w) !! key' = Some e) ->
    errors w' = errors w ->
    calls w' = calls w ++ [imagePath] ->
    outcome i w w'.

End Invariant.

(** ** Sample sites

    A small site used to run the definitions: pages under [/site/pages],
    public files under [/site/public], one JPEG of 1920 by 1080 pixels. *)
Module Sample.
Import Utils Plugin.

(** Every variant asked for is written. *)
Definition fs : Processor.filesystem :=
  Processor.Filesystem
    (fun p =>
       if String.eqb p "/site/public/test.jpg" then
         inr (Processor.ImageFile (Some "jpg")
                                  (Processor.Metadata 1920 1080))
       else inl ("ENOENT: no such file or directory, open '" +:+ p +:+ "'"))
    (fun _ _ _ => None).

Definition processorOptions : Processor.options :=
  Processor.Options "/images" ["webp"] 80 [Processor.Size 640 "sm"].

(** The same site with a second file, a PNG of 1920 by 1 pixels, and a
    [sharp] that refuses a variant without a positive width and
    height. *)
Definition strict_fs : Processor.filesystem :=
  Processor.Filesystem
    (fun p =>
       if String.eqb p "/site/public/line.png" then
         inr (Processor.ImageFile (Some "png") (Processor.Metadata 1920 1))
       else Processor.read fs p)
    (fun _ _ v =>
       if Processor.variant_width v <=? 0 then
         Some ("Expected positive integer for width but received "
               +:+ Z_to_string (Processor.variant_width v)
               +:+ " of type number")
       else if Processor.variant_height v <=? 0 then
         Some ("Expected positive integer for height but received "
               +:+ Z_to_string (Processor.variant_height v)
               +:+ " of type number")
       else None).

(** Two sizes, the second wider than the sample JPEG, in two formats. *)
Definition galleryOptions : Processor.options :=
  Processor.Options "/images" ["webp"; "avif"] 80
    [Processor.Size 640 "sm"; Processor.Size 2560 "xl"].

Definition variant_sm : Processor.variant :=
  Processor.Variant 640 360 "webp" "/site/cache/test-sm.webp"
                    "/images/test-sm.webp".

Definition result : Processor.result :=
  Processor.Result "/images/test-sm.webp 640w"
    "(max-width: 640px) 100vw, (max-width: 1024px) 50vw, (max-width: 1920px) 33vw, 100vw"
    1920 1080 "jpg" [variant_sm].

Definition opts : Plugin.options :=
  Plugin.Options "./cache" processorOptions 4 100.

Definition ctx : context :=
  Context "/site/pages" "/site/pages/home/content.md".

Definition cwd : string := "/site".

(** A clock that advances by one millisecond at every reading. *)
Definition clock (n : nat) : Z := Z.of_nat n.

Definition look (w : world) (i : nat) (k : string) : option attr_value :=
  attrs_of w i !! k.

Definition run (clock : nat -> Z) (doc : node) (w : world) : world :=
  snd (processContent cwd fs clock opts (Some doc) ctx w).

(** Two different image nodes with the same source. *)
Definition twins_heap : gmap nat attrs :=
  {[ 1%nat := {[ "src" := AStr "/test.jpg"; "alt" := AStr "first" ]};
     2%nat := {[ "src" := AStr "/test.jpg"; "alt" := AStr "second" ]} ]}.

Definition twins : node :=
  Node 0 "doc" (Some [Node 1 "image" None; Node 2 "image" None]).

(** [Array(5).fill(node)]: one node object in five places. *)
Definition filled : node :=
  Node 0 "doc" (Some (replicate 5 (Node 1 "image" None))).

(** A missing image before a good one. *)
Definition broken_heap : gmap nat attrs :=
  {[ 1%nat := {[ "src" := AStr "/nonexistent.jpg";
                 "alt" := AStr "Missing image" ]};
     2%nat := {[ "src" := AStr "/test.jpg" ]} ]}.

(** Two nodes that name the same file in two ways. *)
Definition alias_heap : gmap nat attrs :=
  {[ 1%nat := {[ "src" := AStr "/test.jpg"; "alt" := AStr "Hero" ]};
     2%nat := {[ "src" := AStr "../../public/test.jpg";
                 "alt" := AStr "Logo"; "title" := AStr "Our logo" ]} ]}.

(** The same page parsed twice: nodes 1 and 11 are two objects with the
    same content. *)
Definition reparsed_heap : gmap nat attrs :=
  {[ 1%nat := {[ "src" := AStr "/test.jpg"; "alt" := AStr "first" ]};
     11%nat := {[ "src" := AStr "/test.jpg"; "alt" := AStr "first" ]} ]}.

Definition page : node := Node 0 "doc" (Some [Node 1 "image" None]).
Definition page_again : node := Node 10 "doc" (Some [Node 11 "image" None]).

(** Three nodes that name the same file in three ways, and a clock
    whose readings are 0, 100, 101, 102, 102, ...: with a ttl of 100,
    an entry written at the first reading is live at the second and
    expired at the third. *)
Definition trio_heap : gmap nat attrs :=
  {[ 1%nat := {[ "src" := AStr "/test.jpg" ]};
     2%nat := {[ "src" := AStr "../../public/test.jpg" ]};
     3%nat := {[ "src" := AStr "/./test.jpg" ]} ]}.

Definition trio : node :=
  Node 0 "doc" (Some [Node 1 "image" None; Node 2 "image" None;
                      Node 3 "image" None]).

Definition slow_clock (n : nat) : Z :=
  match n with
  | O => 0
  | _ => Z.min (99 + Z.of_nat n) 102
  end.

End Sample.

(** * Properties *)

(** ** The timed cache *)
Section CacheProperties.
Context {V : Type}.
Implicit Types (c : Cache.t V) (v : V) (key : string).

Lemma cache_set_lookup now key v c :
  Cache.store (Cache.set now key v c) !! key = Some (Cache.Entry v now).
Proof. unfold Cache.set; simpl. apply lookup_insert_eq. Qed.

Lemma cache_set_ttl now key v c :
  Cache.ttl (Cache.set now key v c) = Cache.ttl c.
Proof. reflexivity. Qed.

Lemma cache_get_live now key c e :
  Cache.store c !! key = Some e ->
  now - Cache.timestamp e <= Cache.ttl c ->
  Cache.get now key c = (Some (Cache.value e), c).
Proof.
  intros Hk Hle. unfold Cache.get, Cache.keyvExpired, Cache.isExpired.
  rewrite Hk.
  destruct (Z.ltb_spec (Cache.timestamp e + Cache.ttl c) now); [lia |].
  rewrite andb_false_r.
  destruct (Z.ltb_spec (Cache.ttl c) (now - Cache.timestamp e)); [lia | done].
Qed.

(** Past the deadline the entry leaves the store, through Keyv or
    through [delete]. *)
Lemma cache_get_expired now key c e :
  Cache.store c !! key = Some e ->
  now - Cache.timestamp e > Cache.ttl c ->
  fst (Cache.get now key c) = None
  /\ Cache.store (snd (Cache.get now key c)) = delete key (Cache.store c)
  /\ Cache.ttl (snd (Cache.get now key c)) = Cache.ttl c.
Proof.
  intros Hk Hgt. unfold Cache.get, Cache.keyvExpired, Cache.isExpired,
    Cache.delete.
  rewrite Hk.
  destruct (negb (Cache.ttl c =? 0)
            && (Cache.timestamp e + Cache.ttl c <? now)); [done |].
  destruct (Z.ltb_spec (Cache.ttl c) (now - Cache.timestamp e)); [done | lia].
Qed.

(** Keyv never expires an entry that [#isExpired] would keep. *)
Lemma keyvExpired_false now ts c :
  Cache.isExpired c now ts = false -> Cache.keyvExpired c now ts = false.
Proof.
  unfold Cache.isExpired, Cache.keyvExpired. intros Hlive.
  destruct (Z.ltb_spec (Cache.ttl c) (now - ts)); [done |].
  destruct (Z.ltb_spec (ts + Cache.ttl c) now); [lia |].
  apply andb_false_r.
Qed.

Lemma cache_get_missing now key c :
  Cache.store c !! key = None -> Cache.get now key c = (None, c).
Proof. intros Hk. unfold Cache.get. by rewrite Hk. Qed.

(** C4. With ttl [d], an entry set at time [T] is returned by a read at
    any time [t] with [t - T <= d], which leaves the cache as it is; a
    read at a time [t] with [t - T > d] returns [null] and removes the
    entry from the store. Until such a read the entry stays in the store:
    nothing but a read expires it. *)
Theorem C4_ttl_expiry (d T t : Z) key v c :
  Cache.ttl c = d ->
  let c1 := Cache.set T key v c in
  Cache.store c1 !! key = Some (Cache.Entry v T)
  /\ (t - T <= d -> Cache.get t key c1 = (Some v, c1))
  /\ (t - T > d ->
      fst (Cache.get t key c1) = None
      /\ Cache.store (snd (Cache.get t key c1)) !! key = None
      /\ Cache.store (snd (Cache.get t key c1))
         = delete key (Cache.store c)).
Proof.
  intros Hd c1. pose proof (cache_set_lookup T key v c) as Hk.
  split; [exact Hk |]. split.
  - intros Hle.
    rewrite (cache_get_live t key c1 _ Hk); [done |].
    simpl. lia.
  - intros Hgt.
    destruct (cache_get_expired t key c1 _ Hk) as (Hnone & Hstore & _);
      [simpl; lia |].
    split; [done |]. rewrite Hstore. split.
    + apply lookup_delete_eq.
    + apply delete_insert_eq.
Qed.

(** C9 (amended). [set] does not inspect the key: for every string key,
    the empty one included, it stores the value with the time of the
    call under that key, leaves the other keys alone and adds one to
    the counter. *)
Theorem C9_set_persists now key v c :
  Cache.store (Cache.set now key v c) !! key = Some (Cache.Entry v now)
  /\ (forall key', key' <> key ->
        Cache.store (Cache.set now key v c) !! key' = Cache.store c !! key')
  /\ Cache.size (Cache.set now key v c) = Cache.size c + 1
  /\ Cache.ttl (Cache.set now key v c) = Cache.ttl c.
Proof.
  split; [apply cache_set_lookup |]. split; [| done].
  intros key' Hne. unfold Cache.set; simpl. by apply lookup_insert_ne.
Qed.

End CacheProperties.

(** C4, at ttl 100 for an entry set at time 1000: read at 1100 and at
    1101. *)
Lemma C4_ttl_expiry_witness :
  let c1 := Cache.set 1000 "k" 7%nat (Cache.new 100) in
  Cache.get 1100 "k" c1 = (Some 7%nat, c1)
  /\ fst (Cache.get 1101 "k" c1) = None.
Proof.
  pose proof (C4_ttl_expiry 100 1000 1100 "k" 7%nat (Cache.new 100) eq_refl)
    as (_ & Hlive & _).
  pose proof (C4_ttl_expiry 100 1000 1101 "k" 7%nat (Cache.new 100) eq_refl)
    as (_ & _ & Hdead).
  split.
  - apply Hlive. lia.
  - apply Hdead. lia.
Defined.

(** C9, on the empty key and another key of a new cache. *)
Lemma C9_set_persists_witness :
  let c := Cache.set 5 "" 7%nat (Cache.new 100) in
  Cache.store c !! "" = Some (Cache.Entry 7%nat 5)
  /\ Cache.store c !! "other" = None
  /\ Cache.size c = 1.
Proof.
  destruct (C9_set_persists 5 "" 7%nat (Cache.new 100))
    as (Hkey & Hother & Hsize & _).
  split; [exact Hkey |]. split; [| exact Hsize].
  rewrite Hother; [reflexivity | discriminate].
Defined.

(** C9, as stated, fails: setting the empty key does not fail; the entry
    is stored and counted. *)
Lemma C9_empty_key_counterexample :
  let c := Cache.set 5 "" 7%nat (Cache.new 100) in
  Cache.store c !! "" = Some (Cache.Entry 7%nat 5) /\ Cache.size c = 1.
Proof. split; [apply cache_set_lookup | reflexivity]. Qed.

(** ** Variant dimensions *)
Section ProcessorProperties.
Import Processor.

(** [round_div a b] is the integer nearest to [a / b], the upper one at
    a tie. *)
Lemma round_div_nearest (a b : Z) :
  0 < b ->
  2 * a - b < 2 * b * round_div a b <= 2 * a + b.
Proof.
  intros Hb. unfold round_div.
  pose proof (Z.div_mod (2 * a + b) (2 * b)) as Hdm.
  pose proof (Z.mod_pos_bound (2 * a + b) (2 * b)) as Hm.
  lia.
Qed.

Lemma round_div_unique (a b r : Z) :
  0 < b -> 2 * a - b < 2 * b * r <= 2 * a + b -> r = round_div a b.
Proof.
  intros Hb Hr. pose proof (round_div_nearest a b Hb) as Hn. nia.
Qed.

Lemma createVariant_dimensions opts meta name size fmt dir :
  let v := createVariant opts meta name size fmt dir in
  variant_width v = Z.min (size_width size) (meta_width meta)
  /\ variant_height v
     = round_div (meta_height meta * variant_width v) (meta_width meta).
Proof. done. Qed.

(** The inner loop: every format gets its variant, appended in order,
    unless [sharp] throws for one of them. *)
Lemma forFormats_spec opts fs meta p name dir size fmts acc :
  match forFormats opts fs meta p name dir size fmts acc with
  | inr vs =>
      vs = (acc ++ map (fun fmt => createVariant opts meta name size fmt dir)
                       fmts)%list
      /\ Forall (fun fmt =>
                   toFile fs p (quality opts)
                          (createVariant opts meta name size fmt dir)
                   = None) fmts
  | inl msg =>
      exists fmt,
        In fmt fmts
        /\ toFile fs p (quality opts)
                  (createVariant opts meta name size fmt dir) = Some msg
  end.
Proof.
  revert acc. induction fmts as [| fmt rest IH]; intros acc.
  - simpl. split; [by rewrite app_nil_r | constructor].
  - cbn [forFormats]. unfold pushVariant.
    destruct (toFile fs p (quality opts)
                     (createVariant opts meta name size fmt dir)) as [msg |]
      eqn:Hw.
    + exists fmt. split; [by left | done].
    + specialize (IH (acc ++ [createVariant opts meta name size fmt dir])%list).
      destruct (forFormats opts fs meta p name dir size rest _) as [msg | vs].
      * destruct IH as (fmt' & Hin & Hmsg). exists fmt'.
        split; [by right | done].
      * destruct IH as [-> Hall]. split; [| by constructor].
        by rewrite <- app_assoc.
Qed.

(** The outer loop. *)
Lemma forSizes_spec opts fs meta p name dir szs acc :
  match forSizes opts fs meta p name dir szs acc with
  | inr vs =>
      vs = (acc ++ flat_map (fun size =>
                       map (fun fmt =>
                              createVariant opts meta name size fmt dir)
                           (formats opts)) szs)%list
      /\ Forall (fun size =>
           Forall (fun fmt =>
                     toFile fs p (quality opts)
                            (createVariant opts meta name size fmt dir)
                     = None) (formats opts)) szs
  | inl msg =>
      exists size fmt,
        In size szs /\ In fmt (formats opts)
        /\ toFile fs p (quality opts)
                  (createVariant opts meta name size fmt dir) = Some msg
  end.
Proof.
  revert acc. induction szs as [| size rest IH]; intros acc.
  - simpl. split; [by rewrite app_nil_r | constructor].
  - cbn [forSizes flat_map].
    pose proof (forFormats_spec opts fs meta p name dir size (formats opts)
                  acc) as Hinner.
    destruct (forFormats opts fs meta p name dir size (formats opts) acc)
      as [msg | vs'].
    + destruct Hinner as (fmt & Hin & Hmsg). exists size, fmt.
      split; [by left | done].
    + destruct Hinner as [-> Hall]. specialize (IH
        (acc ++ map (fun fmt => createVariant opts meta name size fmt dir)
                    (formats opts))%list).
      destruct (forSizes opts fs meta p name dir rest _) as [msg | vs].
      * destruct IH as (size' & fmt & Hin & Hfmt & Hmsg). exists size', fmt.
        split; [by right | done].
      * destruct IH as [-> Hrest]. split; [| by constructor].
        by rewrite <- app_assoc.
Qed.

Lemma generateVariants_inr opts fs meta imagePath dir vs :
  generateVariants opts fs meta imagePath dir = inr vs ->
  vs = flat_map (fun size =>
         map (fun fmt => createVariant opts meta (Path.parse_name imagePath)
                                       size fmt dir)
             (formats opts)) (sizes opts)
  /\ forall v, In v vs -> toFile fs imagePath (quality opts) v = None.
Proof.
  unfold generateVariants. intros Hvs.
  pose proof (forSizes_spec opts fs meta imagePath
                (Path.parse_name imagePath) dir (sizes opts) []) as Hspec.
  rewrite Hvs in Hspec. destruct Hspec as [-> Hall].
  split; [done |]. intros v Hv. simpl in Hv.
  apply in_flat_map in Hv as (size & Hsize & Hv).
  apply in_map_iff in Hv as (fmt & <- & Hfmt).
  rewrite List.Forall_forall in Hall. specialize (Hall size Hsize).
  rewrite List.Forall_forall in Hall. by apply Hall.
Qed.

Lemma generateVariants_inl opts fs meta imagePath dir msg :
  generateVariants opts fs meta imagePath dir = inl msg ->
  exists size fmt,
    In size (sizes opts) /\ In fmt (formats opts)
    /\ toFile fs imagePath (quality opts)
              (createVariant opts meta (Path.parse_name imagePath)
                             size fmt dir) = Some msg.
Proof.
  unfold generateVariants. intros Hvs.
  pose proof (forSizes_spec opts fs meta imagePath
                (Path.parse_name imagePath) dir (sizes opts) []) as Hspec.
  by rewrite Hvs in Hspec.
Qed.

Lemma process_inr opts fs imagePath dir r :
  process opts fs imagePath dir = inr r ->
  exists file,
    fs imagePath = inr file
    /\ width r = meta_width (file_meta file)
    /\ height r = meta_height (file_meta file)
    /\ file_ext file = Some (format r)
    /\ includes supported (format r) = true
    /\ srcset r = generateSrcset (variants r)
    /\ result_sizes r = generateSizes (variants r)
    /\ generateVariants opts fs (file_meta file) imagePath dir
       = inr (variants r).
Proof.
  unfold process. destruct (fs imagePath) as [msg | file]; [done |].
  destruct (file_ext file) as [ext |] eqn:Hfile; [| done].
  destruct (includes supported ext) eqn:Hext; [| done].
  destruct (generateVariants opts fs (file_meta file) imagePath dir)
    as [msg | vs] eqn:Hvs; [done |].
  intros [= <-]. exists file. by split_and!.
Qed.

(** C5. When [process] returns for a source of width [w > 0] and height
    [h], every configured size of target width [t] has, for every
    configured format, its variant in the result: the one named after
    the size's suffix and the format, of width [min t w] and height
    [h * min t w / w] rounded to the nearest integer. The result holds
    nothing else: every variant comes from a configured size in this
    way and is not wider than the source, and the dimensions of the
    variants, in order, are those of the sizes, each repeated once per
    format. *)
Theorem C5_variant_dimensions opts fs imagePath dir r :
  process opts fs imagePath dir = inr r ->
  0 < width r ->
  (forall size fmt,
      In size (sizes opts) -> In fmt (formats opts) ->
      exists v,
        In v (variants r)
        /\ variant_format v = fmt
        /\ variant_url v
           = publicPath opts +:+ "/" +:+ Path.parse_name imagePath +:+ "-"
             +:+ size_suffix size +:+ "." +:+ fmt
        /\ variant_width v = Z.min (size_width size) (width r)
        /\ variant_height v
           = round_div (height r * Z.min (size_width size) (width r))
                       (width r))
  /\ (forall v,
        In v (variants r) ->
        exists size,
          In size (sizes opts)
          /\ variant_width v = Z.min (size_width size) (width r)
          /\ variant_height v
             = round_div (height r * variant_width v) (width r)
          /\ 2 * (height r * variant_width v) - width r
               < 2 * width r * variant_height v
               <= 2 * (height r * variant_width v) + width r
          /\ variant_width v <= width r)
  /\ map (fun v => (variant_width v, variant_height v)) (variants r)
     = flat_map (fun size =>
         map (fun _ =>
                (Z.min (size_width size) (width r),
                 round_div (height r * Z.min (size_width size) (width r))
                           (width r)))
             (formats opts)) (sizes opts).
Proof.
  intros Hp Hw.
  apply process_inr in Hp
    as (file & _ & Hwidth & Hheight & _ & _ & _ & _ & Hvs).
  apply generateVariants_inr in Hvs as [Hvs _].
  rewrite Hvs, Hwidth, Hheight in *. clear Hvs. split; [| split].
  - intros size fmt Hsize Hfmt.
    exists (createVariant opts (file_meta file) (Path.parse_name imagePath)
                          size fmt dir).
    split; [| done].
    apply in_flat_map. exists size. split; [done |].
    apply in_map_iff. by exists fmt.
  - intros v Hv.
    apply in_flat_map in Hv as (size & Hsize & Hv).
    apply in_map_iff in Hv as (fmt & <- & Hfmt).
    exists size.
    destruct (createVariant_dimensions opts (file_meta file)
                (Path.parse_name imagePath) size fmt dir) as [Hvw Hvh].
    split; [done |]. split; [done |]. split; [done |]. split.
    + rewrite Hvh. by apply round_div_nearest.
    + rewrite Hvw. lia.
  - induction (sizes opts) as [| size rest IH]; [done |].
    cbn [flat_map]. rewrite map_app, IH. f_equal.
    by rewrite map_map.
Qed.

End ProcessorProperties.

(** C5, on the sample JPEG of 1920 by 1080 with the sizes 640 and 2560 in
    two formats: four variants, 640 by 360 twice and then, the second
    target being wider than the source, 1920 by 1080 twice. *)
Lemma C5_variant_dimensions_witness :
  exists r,
    Processor.process Sample.galleryOptions Sample.fs
      "/site/public/test.jpg" "/site/cache" = inr r
    /\ map (fun v => (Processor.variant_width v, Processor.variant_height v))
           (Processor.variants r)
       = [(640, 360); (640, 360); (1920, 1080); (1920, 1080)]
    /\ exists v,
        In v (Processor.variants r)
        /\ Processor.variant_url v = "/images/test-xl.avif"
        /\ Processor.variant_width v = 1920
        /\ Processor.variant_height v = 1080.
Proof.
  destruct (Processor.process Sample.galleryOptions Sample.fs
              "/site/public/test.jpg" "/site/cache") as [msg | r] eqn:Hp;
    [vm_compute in Hp; discriminate |].
  assert (Processor.width r = 1920 /\ Processor.height r = 1080) as [Hw Hh]
    by (vm_compute in Hp; injection Hp as <-; split; reflexivity).
  destruct (C5_variant_dimensions Sample.galleryOptions Sample.fs
              "/site/public/test.jpg" "/site/cache" r Hp)
    as (Hall & _ & Hdims); [lia |].
  exists r. split; [reflexivity |]. split.
  - rewrite Hdims, Hw, Hh. reflexivity.
  - destruct (Hall (Processor.Size 2560 "xl") "avif")
      as (v & Hv & _ & Hurl & Hvw & Hvh);
      [simpl; auto | simpl; auto |].
    exists v. rewrite Hw in Hvw. rewrite Hw, Hh in Hvh.
    split; [exact Hv |]. split; [exact Hurl |]. split; [exact Hvw | exact Hvh].
Defined.

(** ** Paths *)
Section PathProperties.
Import Path.

Lemma segments_nonempty s : segments s <> [].
Proof.
  destruct s as [| c s]; simpl; [done |].
  destruct (is_slash c); [done |]. by destruct (segments s).
Qed.

Lemma segments_slash_free s : Forall (fun x => has_slash x = false) (segments s).
Proof.
  induction s as [| c s IH]; simpl; [by constructor |].
  destruct (is_slash c) eqn:Hc; [by constructor |].
  destruct (segments s) as [| seg rest]; [by constructor; simpl; rewrite ?Hc |].
  apply Forall_cons_1 in IH as [Hseg Hrest].
  constructor; [simpl; by rewrite Hc | done].
Qed.

Lemma segments_name s : has_slash s = false -> segments s = [s].
Proof.
  induction s as [| c s IH]; simpl; [done |].
  intros [Hc Hs]%orb_false_iff. rewrite Hc, (IH Hs). done.
Qed.

Lemma segments_app_slash s rest :
  has_slash s = false ->
  segments (s +:+ "/" +:+ rest) = s :: segments rest.
Proof.
  induction s as [| c s IH]; simpl; [done |].
  intros [Hc Hs]%orb_false_iff. rewrite Hc, (IH Hs). done.
Qed.

Lemma segments_concat l :
  Forall (fun x => has_slash x = false) l ->
  l <> [] ->
  segments (String.concat "/" l) = l.
Proof.
  induction l as [| x l IH]; [done |]. intros [Hx Hl]%Forall_cons_1 _.
  destruct l as [| y l]; simpl.
  - by apply segments_name.
  - rewrite segments_app_slash by done. f_equal. by apply IH.
Qed.

Lemma normalize_go_app al st xs ys :
  normalize_go al st (xs ++ ys)
  = normalize_go al (rev (normalize_go al st xs)) ys.
Proof.
  revert st. induction xs as [| x xs IH]; intros st; simpl.
  - by rewrite rev_involutive.
  - destruct (String.eqb x "" || String.eqb x "."); [apply IH |].
    destruct (String.eqb x ".."); [| apply IH].
    destruct st as [| top below]; [apply IH |].
    destruct (String.eqb top ".."); apply IH.
Qed.

Lemma normalize_go_names al st l :
  Forall (fun x => is_name x = true) l ->
  normalize_go al st l = rev st ++ l.
Proof.
  revert st. induction l as [| x l IH]; intros st Hl; simpl.
  - by rewrite app_nil_r.
  - apply Forall_cons_1 in Hl as [Hx Hl]. unfold is_name in Hx.
    apply andb_true_iff in Hx as [Hx _].
    apply andb_true_iff in Hx as [Hx Hdd].
    apply andb_true_iff in Hx as [He Hd].
    apply negb_true_iff in He, Hd, Hdd. rewrite He, Hd, Hdd. simpl.
    rewrite (IH _ Hl). simpl. by rewrite <- app_assoc.
Qed.

(** Below the root, what [normalizeString] leaves is a list of names. *)
Lemma normalize_go_is_names st l :
  Forall (fun x => is_name x = true) st ->
  Forall (fun x => has_slash x = false) l ->
  Forall (fun x => is_name x = true) (normalize_go false st l).
Proof.
  revert st. induction l as [| x l IH]; intros st Hst Hl; simpl.
  - by apply Forall_rev.
  - apply Forall_cons_1 in Hl as [Hx Hl].
    destruct (String.eqb x "") eqn:He; simpl; [by apply IH |].
    destruct (String.eqb x ".") eqn:Hd; simpl; [by apply IH |].
    destruct (String.eqb x "..") eqn:Hdd.
    + destruct st as [| top below]; [by apply IH |].
      apply Forall_cons_1 in Hst as [Htop Hbelow].
      destruct (String.eqb top ".."); apply IH; try done.
      by constructor.
    + apply IH; [| done]. constructor; [| done].
      unfold is_name. by rewrite He, Hd, Hdd, Hx.
Qed.

Lemma is_name_slash_free l :
  Forall (fun x => is_name x = true) l ->
  Forall (fun x => has_slash x = false) l.
Proof.
  intros Hl. eapply Forall_impl; [exact Hl |]. intros x Hx.
  unfold is_name in Hx.
  apply andb_true_iff in Hx as [_ Hx]. by apply negb_true_iff.
Qed.

(** Normalising a normalised absolute path gives it back. *)
Lemma normalize_rendered l :
  Forall (fun x => is_name x = true) l ->
  normalize_go false [] (segments ("/" +:+ String.concat "/" l)) = l.
Proof.
  intros Hl.
  change (segments ("/" +:+ String.concat "/" l))
    with ("" :: segments (String.concat "/" l)).
  change (normalize_go false [] ("" :: segments (String.concat "/" l)))
    with (normalize_go false [] (segments (String.concat "/" l))).
  destruct l as [| x l]; [reflexivity |].
  rewrite segments_concat; [| by apply is_name_slash_free | done].
  by rewrite normalize_go_names.
Qed.

Lemma resolve_scan_slash_free l :
  Forall (fun x => has_slash x = false) (snd (resolve_scan l)).
Proof.
  induction l as [| p l IH]; simpl; [by constructor |].
  destruct (String.eqb p ""); [done |].
  destruct (isAbsolute p); simpl; [apply segments_slash_free |].
  destruct (resolve_scan l) as [a segs]. simpl in *.
  apply Forall_app. split; [done | apply segments_slash_free].
Qed.

Lemma resolve_scan_absolute l cwd :
  isAbsolute cwd = true -> fst (resolve_scan (l ++ [cwd])) = true.
Proof.
  intros Hcwd. induction l as [| p l IH]; simpl.
  - destruct cwd as [| c cwd]; [done |]. simpl. simpl in Hcwd.
    by rewrite Hcwd.
  - destruct (String.eqb p ""); [done |].
    destruct (isAbsolute p); [done |].
    by destruct (resolve_scan (l ++ [cwd])).
Qed.

(** With an absolute working directory, [resolve] gives ["/"] followed
    by names separated by ["/"]. *)
Lemma resolve_rendered cwd args :
  isAbsolute cwd = true ->
  exists names,
    Forall (fun x => is_name x = true) names
    /\ resolve_scan (rev args ++ [cwd])
       = (true, snd (resolve_scan (rev args ++ [cwd])))
    /\ names = normalize_go false []
                 (snd (resolve_scan (rev args ++ [cwd])))
    /\ resolve cwd args = "/" +:+ String.concat "/" names.
Proof.
  intros Hcwd. unfold resolve, normalizeString.
  pose proof (resolve_scan_absolute (rev args) cwd Hcwd) as Habs.
  pose proof (resolve_scan_slash_free (rev args ++ [cwd])) as Hfree.
  destruct (resolve_scan (rev args ++ [cwd])) as [a segs].
  simpl in *. subst a. simpl.
  exists (normalize_go false [] segs).
  split; [by apply normalize_go_is_names |]. done.
Qed.

Lemma resolve_scan_cons d l :
  resolve_scan (d :: l)
  = if String.eqb d "" then resolve_scan l
    else if isAbsolute d then (true, segments d)
    else (fst (resolve_scan l), snd (resolve_scan l) ++ segments d).
Proof. simpl. by destruct (resolve_scan l). Qed.

(** Resolving the last argument against the resolution of the ones
    before it: [resolve(a, ..., d) = resolve(resolve(a, ...), d)]. *)
Lemma resolve_last cwd args d :
  isAbsolute cwd = true ->
  resolve cwd (args ++ [d]) = resolve cwd [resolve cwd args; d].
Proof.
  intros Hcwd.
  destruct (resolve_rendered cwd args Hcwd) as (names & Hnames & Hscan & Hdef & Hres).
  rewrite Hres. unfold resolve at 1 2.
  rewrite rev_app_distr.
  change (rev [d] ++ rev args) with (d :: rev args).
  change (rev ["/" +:+ String.concat "/" names; d] ++ [cwd])
    with ([d; "/" +:+ String.concat "/" names; cwd]).
  change ((d :: rev args) ++ [cwd]) with (d :: (rev args ++ [cwd])).
  rewrite !(resolve_scan_cons d).
  change (resolve_scan ["/" +:+ String.concat "/" names; cwd])
    with (true, segments ("/" +:+ String.concat "/" names)).
  destruct (resolve_scan (rev args ++ [cwd])) as [a segs].
  simpl in Hscan, Hdef. injection Hscan as ->.
  unfold normalizeString.
  destruct (String.eqb d "").
  { cbn [negb]. by rewrite <- Hdef, normalize_rendered. }
  destruct (isAbsolute d); [done |].
  cbn [fst snd negb].
  rewrite !(normalize_go_app false []).
  by rewrite <- Hdef, normalize_rendered.
Qed.

End PathProperties.

Section ResolutionProperties.
Import Utils.

(** C7 (amended). A [src] with a leading ["/"] is resolved, without
    that separator, in the directory [public] beside the resource path,
    which is [resolve(resourcePath, "..", "public")], not the resource
    path itself; any other [src] is resolved in the directory of the
    current file. The working directory of the process is absolute. *)
Theorem C7_resolvePublicPath cwd src ctx :
  Path.isAbsolute cwd = true ->
  (String.prefix "/" src = true ->
     resolvePublicPath cwd (AStr src) ctx
     = inr (Path.resolve cwd [publicRoot cwd ctx; slice1 src]))
  /\ (String.prefix "/" src = false ->
       resolvePublicPath cwd (AStr src) ctx
       = inr (Path.resolve cwd [Path.dirname (currentFile ctx); src])).
Proof.
  intros Hcwd. unfold resolvePublicPath. split; intros ->; [| done].
  f_equal. unfold publicRoot.
  by rewrite <- (resolve_last cwd [resourcePath ctx; ".."; "public"]).
Qed.

End ResolutionProperties.

(** C7, on the sample site: a public source and a relative one. *)
Lemma C7_resolvePublicPath_witness :
  Utils.publicRoot Sample.cwd Sample.ctx = "/site/public"
  /\ Utils.resolvePublicPath Sample.cwd (Utils.AStr "/img/a.png") Sample.ctx
     = inr "/site/public/img/a.png"
  /\ Utils.resolvePublicPath Sample.cwd (Utils.AStr "img/a.png") Sample.ctx
     = inr "/site/pages/home/img/a.png".
Proof.
  split; [reflexivity |].
  destruct (C7_resolvePublicPath Sample.cwd "/img/a.png" Sample.ctx eq_refl)
    as [Hpublic _].
  destruct (C7_resolvePublicPath Sample.cwd "img/a.png" Sample.ctx eq_refl)
    as [_ Hrelative].
  split.
  - rewrite (Hpublic eq_refl). reflexivity.
  - rewrite (Hrelative eq_refl). reflexivity.
Defined.

(** C7, as stated, fails: with the resource path [/site/pages], the
    source [/test.jpg] is not resolved under the resource path (neither
    with nor without its leading separator) but under [/site/public]. *)
Lemma C7_public_root_counterexample :
  Utils.resourcePath Sample.ctx = "/site/pages"
  /\ Utils.resolvePublicPath Sample.cwd (Utils.AStr "/test.jpg") Sample.ctx
     = inr "/site/public/test.jpg"
  /\ Path.resolve Sample.cwd [Utils.resourcePath Sample.ctx; "test.jpg"]
     = "/site/pages/test.jpg"
  /\ Path.resolve Sample.cwd [Utils.resourcePath Sample.ctx; "/test.jpg"]
     = "/test.jpg"
  /\ String.prefix (Utils.resourcePath Sample.ctx) "/site/public/test.jpg"
     = false.
Proof. repeat split. Qed.

(** ** Option validation *)
Section ValidationProperties.
Import Utils.

Lemma Qlt_bool_false (x y : Q) : Qlt_bool x y = false <-> (y <= x)%Q.
Proof.
  unfold Qlt_bool. rewrite negb_false_iff. apply Qle_bool_iff.
Qed.

(** The test for a number below a bound lets through the numbers from
    the bound up and, every comparison with it being false, [NaN]. *)
Lemma not_number_or_below_false v lo :
  not_number_or_below v lo = false <-> v = VNaN \/ number_from lo v.
Proof.
  unfold number_from.
  destruct v as [| | b | q | | negative | s]; simpl;
    try (split; [done | intros [? | [(? & ? & _) | ?]]; done]).
  - rewrite Qlt_bool_false. split.
    + intros Hq. right. left. by exists q.
    + intros [? | [(q' & [= <-] & Hq) | ?]]; done.
  - split; [by left | done].
  - destruct negative.
    + split; [done | intros [? | [(? & ? & _) | ?]]; done].
    + split; [| done]. intros _. right. by right.
Qed.

Lemma at_least_one_truthy q : (1 <= q)%Q -> truthy (VNum q) = true.
Proof.
  intros Hq. simpl. apply negb_true_iff.
  destruct (Qeq_bool q 0) eqn:Heq; [| done].
  apply Qeq_bool_iff in Heq. rewrite Heq in Hq.
  exfalso. revert Hq. unfold Qle. simpl. lia.
Qed.

Lemma number_from_one_truthy v : number_from 1 v -> truthy v = true.
Proof.
  intros [(q & -> & Hq) | ->]; [by apply at_least_one_truthy | done].
Qed.

Lemma validateSizes_ok l :
  validateSizes l = inr tt <-> Forall valid_size l.
Proof.
  induction l as [| size l IH]; simpl.
  - split; [constructor | done].
  - destruct (truthy (width size)) eqn:Hw, (truthy (suffix size)) eqn:Hs;
      simpl.
    + destruct (not_number_or_below (width size) 1) eqn:Hn.
      * split; [done |]. intros Hall. apply Forall_cons_1 in Hall as [[_ Hq] _].
        assert (not_number_or_below (width size) 1 = false) as Hn'
          by (apply not_number_or_below_false; by right).
        congruence.
      * rewrite IH. apply not_number_or_below_false in Hn.
        split; [| by intros [_ ?]%Forall_cons_1]. intros Hall.
        constructor; [| done]. split; [done |].
        destruct Hn as [Hnan | Hn]; [| done].
        rewrite Hnan in Hw. done.
    + split; [done |]. intros [[? _] _]%Forall_cons_1. congruence.
    + split; [done |]. intros [[_ Hq] _]%Forall_cons_1.
      apply number_from_one_truthy in Hq. congruence.
    + split; [done |]. intros [[? _] _]%Forall_cons_1. congruence.
Qed.

(** The size that [validateSizes] stops at is not a valid one. *)
Lemma validateSizes_rejects l msg :
  validateSizes l = inl msg -> ~ Forall valid_size l.
Proof.
  intros Hmsg Hall. apply validateSizes_ok in Hall. congruence.
Qed.

Lemma validateSizes_message l msg :
  validateSizes l = inl msg ->
  msg = "Each size must have width and suffix"
  \/ msg = "Size width must be a positive number".
Proof.
  induction l as [| size l IH]; simpl; [done |].
  destruct (negb (truthy (width size)) || negb (truthy (suffix size)));
    [intros [= <-]; by left |].
  destruct (not_number_or_below (width size) 1);
    [intros [= <-]; by right | exact IH].
Qed.

Lemma no_invalid_formats l :
  List.filter (fun f => negb (existsb (String.eqb f) validFormats)) l = []
  <-> Forall (fun f => In f validFormats) l.
Proof.
  induction l as [| f l IH]; [split; [constructor | done] |].
  cbn [List.filter].
  destruct (existsb (String.eqb f) validFormats) eqn:Hf; cbn [negb].
  - rewrite IH. apply existsb_exists in Hf as (g & Hg & ->%String.eqb_eq).
    split; [by constructor | by intros [_ ?]%Forall_cons_1].
  - split; [done |]. intros [Hin _]%Forall_cons_1. exfalso.
    assert (existsb (String.eqb f) validFormats = true) as Ht; [| congruence].
    apply existsb_exists. exists f. split; [done | apply String.eqb_refl].
Qed.

Lemma quality_ok v :
  negb (is_undefined v)
  && (not_number_or_below v 1 || above v 100) = false
  <-> v = VUndefined \/ v = VNaN
      \/ exists q, v = VNum q /\ (1 <= q)%Q /\ (q <= 100)%Q.
Proof.
  destruct v as [| | b | q | | negative | s]; simpl;
    try (split; [done | intros [? | [? | (? & ? & _)]]; done]).
  - split; [by left | done].
  - rewrite orb_false_iff, !Qlt_bool_false. split.
    + intros [? ?]. right. right. by exists q.
    + intros [? | [? | (q' & [= <-] & ? & ?)]]; done.
  - split; [| done]. intros _. right. by left.
  - destruct negative; simpl;
      (split; [done | intros [? | [? | (? & ? & _)]]; done]).
Qed.

Lemma concurrency_ok v :
  negb (is_undefined v) && not_number_or_below v 1 = false
  <-> v = VUndefined \/ v = VNaN \/ number_from 1 v.
Proof.
  pose proof (not_number_or_below_false v 1) as Hn.
  destruct v as [| | b | q | | negative | s];
    cbn [is_undefined negb andb].
  1: { split; [by left | done]. }
  all: rewrite Hn; split; [by right | intros [? | ?]; done].
Qed.

Lemma validateOptions_ok o : validateOptions o = inr tt <-> valid o.
Proof.
  destruct o as [od pp fm ql sz cc ct].
  unfold validateOptions, valid, accepts. simpl.
  destruct (truthy od); simpl; [| split; [done | by intros (? & _)]].
  destruct (truthy pp); simpl; [| split; [done | by intros (_ & ? & _)]].
  destruct fm as [v | l].
  { split; [by destruct v as [| | | | | | s];
              try destruct (String.eqb s "") |].
    by intros (_ & _ & (l & ? & _) & _). }
  destruct l as [| f l].
  { split; [done |]. by intros (_ & _ & (l & [= <-] & ? & _) & _). }
  pose proof (no_invalid_formats (f :: l)) as Hfm.
  destruct (List.filter _ (f :: l)) as [| bad rest].
  - simpl. pose proof (quality_ok ql) as Hql.
    destruct (negb (is_undefined ql) && _).
    { split; [done |]. intros (_ & _ & _ & Hq & _).
      apply Hql in Hq. done. }
    pose proof (concurrency_ok cc) as Hcc.
    destruct sz as [v | sizes].
    + destruct (truthy v).
      { split; [done |]. by intros (_ & _ & _ & _ & ? & _). }
      destruct (negb (is_undefined cc) && _).
      { split; [done |]. intros (_ & _ & _ & _ & _ & Hc).
        apply Hcc in Hc. done. }
      split; [| done]. intros _. repeat split; try done.
      * exists (f :: l). repeat split; [done |]. by apply Hfm.
      * by apply Hql.
      * by apply Hcc.
    + pose proof (validateSizes_ok sizes) as Hsz.
      destruct (validateSizes sizes) as [msg | []].
      { split; [done |]. intros (_ & _ & _ & _ & Hs & _).
        apply Hsz in Hs. done. }
      destruct (negb (is_undefined cc) && _).
      { split; [done |]. intros (_ & _ & _ & _ & _ & Hc).
        apply Hcc in Hc. done. }
      split; [| done]. intros _. repeat split; try done.
      * exists (f :: l). repeat split; [done |]. by apply Hfm.
      * by apply Hql.
      * by apply Hsz.
      * by apply Hcc.
  - simpl. split; [done |].
    intros (_ & _ & (l' & [= <-] & _ & Hall) & _).
    apply Hfm in Hall. done.
Qed.

Lemma prefix_refl (p : string) : String.prefix p p = true.
Proof.
  induction p as [| c p IH]; simpl; [done |].
  destruct (ascii_dec c c); done.
Qed.

Lemma prefix_append (p x : string) : String.prefix p (p +:+ x) = true.
Proof.
  induction p as [| c p IH]; simpl; [by destruct x |].
  destruct (ascii_dec c c); done.
Qed.

Lemma error_table_mentions name start :
  In (name, start) error_table -> mentions name start = true.
Proof.
  intros Hin. simpl in Hin.
  repeat (destruct Hin as [[= <- <-] | Hin]; [vm_compute; reflexivity |]).
  done.
Qed.

(** The message thrown is one of the table, under the first option, in
    the order of the checks, that does not pass. *)
Lemma validateOptions_message o msg :
  validateOptions o = inl msg ->
  exists k start,
    In (name_of k, start) error_table
    /\ String.prefix start msg = true
    /\ ~ accepts o k
    /\ forall k', (rank k' < rank k)%nat -> accepts o k'.
Proof.
  destruct o as [od pp fm ql sz cc ct]. unfold validateOptions. simpl.
  destruct (truthy od) eqn:Hod; simpl.
  2: { intros [= <-]. exists OutputDir, "outputDir is required".
       split; [simpl; tauto |]. split; [apply prefix_refl |]. split.
       - simpl. congruence.
       - intros k' Hk'. destruct k'; simpl in Hk'; lia. }
  destruct (truthy pp) eqn:Hpp; simpl.
  2: { intros [= <-]. exists PublicPath, "publicPath is required".
       split; [simpl; tauto |]. split; [apply prefix_refl |]. split.
       - simpl. congruence.
       - intros k' Hk'. destruct k'; simpl in Hk'; try lia. exact Hod. }
  assert (forall k', (rank k' < rank Formats)%nat ->
            accepts (Options od pp fm ql sz cc ct) k') as Hbefore_formats.
  { intros k' Hk'. destruct k'; simpl in Hk'; try lia; assumption. }
  destruct fm as [v | l].
  { assert (~ accepts (Options od pp (Prim v) ql sz cc ct) Formats)
      as Hno by (by intros (l & ? & _)).
    destruct v as [| | | | | | s]; try destruct (String.eqb s "");
      intros [= <-].
    all: try (exists Formats, "At least one output format is required";
              split; [simpl; tauto |]; split; [apply prefix_refl |];
              by split).
    exists Formats, "formats.filter is not a function".
    split; [simpl; tauto |]. split; [apply prefix_refl |]. by split. }
  destruct l as [| f l].
  { intros [= <-]. exists Formats, "At least one output format is required".
    split; [simpl; tauto |]. split; [apply prefix_refl |].
    split; [| done]. by intros (l & [= <-] & ? & _). }
  pose proof (no_invalid_formats (f :: l)) as Hfm.
  destruct (List.filter _ (f :: l)) as [| bad rest]; simpl.
  2: { intros [= <-]. exists Formats, "Invalid formats: ".
       split; [simpl; tauto |]. split; [apply prefix_append |].
       split; [| done]. intros (l' & [= <-] & _ & Hall).
       apply Hfm in Hall. done. }
  assert (forall k', (rank k' < rank Quality)%nat ->
            accepts (Options od pp (Arr (f :: l)) ql sz cc ct) k')
    as Hbefore_quality.
  { intros k' Hk'. destruct k'; simpl in Hk'; try lia; try assumption.
    exists (f :: l). split; [done |]. split; [done |]. by apply Hfm. }
  pose proof (quality_ok ql) as Hql.
  destruct (negb (is_undefined ql) && _).
  { intros [= <-].
    exists Quality, "Quality must be a number between 1 and 100".
    split; [simpl; tauto |]. split; [apply prefix_refl |].
    split; [| done]. intros Hq. apply Hql in Hq. done. }
  assert (forall k', (rank k' < rank Sizes)%nat ->
            accepts (Options od pp (Arr (f :: l)) ql sz cc ct) k')
    as Hbefore_sizes.
  { intros k' Hk'. destruct k'; simpl in Hk'; try lia;
      try (apply Hbefore_quality; simpl; lia).
    by apply Hql. }
  pose proof (concurrency_ok cc) as Hcc.
  assert (forall m,
            accepts (Options od pp (Arr (f :: l)) ql sz cc ct) Sizes ->
            (if negb (is_undefined cc) && not_number_or_below cc 1
             then inl "Concurrency must be a positive number"
             else inr tt) = inl m ->
            exists k start,
              In (name_of k, start) error_table
              /\ String.prefix start m = true
              /\ ~ accepts (Options od pp (Arr (f :: l)) ql sz cc ct) k
              /\ forall k', (rank k' < rank k)%nat ->
                   accepts (Options od pp (Arr (f :: l)) ql sz cc ct) k')
    as Hlast.
  { intros m Hsizes.
    destruct (negb (is_undefined cc) && _); [| done].
    intros [= <-].
    exists Concurrency, "Concurrency must be a positive number".
    split; [simpl; tauto |]. split; [apply prefix_refl |].
    split; [intros Hc; apply Hcc in Hc; done |].
    intros k' Hk'. destruct k'; simpl in Hk'; try lia;
      try (apply Hbefore_sizes; simpl; lia).
    exact Hsizes. }
  destruct sz as [v | sizes].
  - destruct (truthy v) eqn:Hv.
    + intros [= <-]. exists Sizes, "Sizes must be an array".
      split; [simpl; tauto |]. split; [apply prefix_refl |].
      split; [| done]. simpl. congruence.
    + apply Hlast. exact Hv.
  - destruct (validateSizes sizes) as [m | []] eqn:Hsz.
    + intros [= <-].
      pose proof (validateSizes_rejects _ _ Hsz) as Hno.
      apply validateSizes_message in Hsz as [-> | ->].
      * exists Sizes, "Each size must have width and suffix".
        split; [simpl; tauto |]. split; [apply prefix_refl |]. by split.
      * exists Sizes, "Size width must be a positive number".
        split; [simpl; tauto |]. split; [apply prefix_refl |]. by split.
    + apply Hlast. simpl. by apply validateSizes_ok.
Qed.


End ValidationProperties.



(** ** The orchestrator *)
Section PluginProperties.
Import Utils Plugin.

Variable cwd : string.
Variable fs : Processor.filesystem.
Variable clock : nat -> Z.
Variable opts : options.

Local Abbreviation processImage := (Plugin.processImage cwd fs clock opts).
Local Abbreviation processImage_try := (Plugin.processImage_try cwd fs clock opts).
Local Abbreviation processNode := (Plugin.processNode cwd fs clock opts).
Local Abbreviation processContent := (Plugin.processContent cwd fs clock opts).
Local Abbreviation processVisits := (Plugin.processVisits cwd fs clock opts).
Local Abbreviation visit := (Plugin.visit cwd fs clock opts).
Local Abbreviation cache_get := (Plugin.cache_get clock).
Local Abbreviation cache_has := (Plugin.cache_has clock).
Local Abbreviation cache_set := (Plugin.cache_set clock).

Lemma node_induction (P : node -> Prop) :
  (forall i t, P (Node i t None)) ->
  (forall i t l, Forall P l -> P (Node i t (Some l))) ->
  forall n, P n.
Proof.
  intros Hleaf Hinner. fix IH 1. intros [i t [l |]].
  - apply Hinner. induction l as [| child l IHl]; constructor.
    + apply IH.
    + exact IHl.
  - apply Hleaf.
Qed.

Lemma processVisits_app ctx l1 l2 w :
  processVisits ctx (l1 ++ l2) w = processVisits ctx l2 (processVisits ctx l1 w).
Proof. unfold Plugin.processVisits. apply fold_left_app. Qed.

(** The recursive traversal visits the nodes in document order. *)
Lemma processNode_visits ctx n :
  forall w, processNode n ctx w = processVisits ctx (visits n) w.
Proof.
  induction n as [i t | i t l IH] using node_induction; intros w.
  - reflexivity.
  - simpl. unfold Plugin.processVisits at 1. simpl.
    change (if isImageNode t (attrs_of w i) then processImage i ctx w else w)
      with (visit ctx (i, t) w).
    generalize (visit ctx (i, t) w). clear w.
    induction IH as [| child l Hchild _ IHl]; intros w; [reflexivity |].
    simpl. rewrite fold_left_app. rewrite Hchild. apply IHl.
Qed.

Lemma cache_get_frame key w :
  let w' := snd (cache_get key w) in
  heap w' = heap w /\ processed w' = processed w
  /\ errors w' = errors w /\ calls w' = calls w.
Proof.
  unfold Plugin.cache_get. destruct (Cache.store (cache w) !! key); [| done].
  destruct (Cache.get _ _ _). done.
Qed.

Lemma cache_has_frame key w b w' :
  cache_has key w = (b, w') ->
  heap w' = heap w /\ processed w' = processed w
  /\ errors w' = errors w /\ calls w' = calls w.
Proof.
  unfold Plugin.cache_has. pose proof (cache_get_frame key w) as Hf.
  destruct (cache_get key w) as [r w1]. intros [= _ <-]. exact Hf.
Qed.

(** A node whose source is in [#processed] is left alone: the early
    return comes before any look at the cache. *)
Lemma processImage_already_processed i ctx w s :
  attrs_of w i !! "src" = Some (AStr s) ->
  s ∈ processed w ->
  processImage i ctx w = w.
Proof.
  intros Hsrc Hin. unfold Plugin.processImage. rewrite Hsrc.
  unfold processed_has. rewrite bool_decide_eq_true_2 by done.
  by rewrite orb_true_r.
Qed.

Lemma processImage_throws i ctx w src detail wt :
  attrs_of w i !! "src" = Some src ->
  attr_truthy (Some src) = true ->
  processed_has src w = false ->
  throws cwd fs clock opts src ctx w detail wt ->
  processImage i ctx w
  = addError ("Failed to process image " +:+ attr_to_string src
              +:+ ": " +:+ detail) wt
  /\ heap wt = heap w /\ processed wt = processed w
  /\ errors wt = errors w.
Proof.
  intros Hsrc Htruthy Hnew Hthrows. unfold Plugin.processImage.
  rewrite Hsrc, Htruthy, Hnew. simpl.
  unfold Plugin.processImage_try.
  destruct Hthrows as [detail Hres | imagePath detail w1 Hres Hhas Hproc].
  - by rewrite Hres.
  - rewrite Hres, Hhas. simpl. rewrite Hproc.
    apply cache_has_frame in Hhas as (Hh & Hp & He & _). done.
Qed.

(** C3. When the processing of an image node fails (in path resolution,
    or in the processor: type detection, variant generation), the visit
    appends exactly one record, "Failed to process image {src}:
    {detail}", to the error collector and leaves every attribute of
    every node, its own included, as it was; [processContent] returns
    the document, having gone on to the nodes after the failed one. *)
Theorem C3_failure_isolation ctx w doc pre i post src detail wt :
  type doc = "doc" ->
  visits doc = pre ++ (i, "image") :: post ->
  let w0 := processVisits ctx pre w in
  attrs_of w0 i !! "src" = Some src ->
  attr_truthy (Some src) = true ->
  processed_has src w0 = false ->
  throws cwd fs clock opts src ctx w0 detail wt ->
  let w1 := processImage i ctx w0 in
  errors w1
  = errors w0 ++ [ErrorRecord ("Failed to process image "
                               +:+ attr_to_string src +:+ ": " +:+ detail)]
  /\ heap w1 = heap w0
  /\ processed w1 = processed w0
  /\ processContent (Some doc) ctx w = (Some doc, processVisits ctx post w1).
Proof.
  intros Hdoc Hvisits w0 Hsrc Htruthy Hnew Hthrows w1.
  destruct (processImage_throws i ctx w0 src detail wt
              Hsrc Htruthy Hnew Hthrows) as (Heq & Hh & Hp & He).
  subst w1. rewrite Heq. simpl. rewrite He.
  split; [done |]. split; [done |]. split; [done |].
  unfold Plugin.processContent. rewrite Hdoc. simpl.
  rewrite processNode_visits, Hvisits, processVisits_app. simpl.
  fold w0. unfold Plugin.visit at 1. simpl.
  unfold isImageNode. rewrite Hsrc, Htruthy. simpl.
  by rewrite Heq.
Qed.

Lemma cache_get_hit key w e :
  Cache.store (cache w) !! key = Some e ->
  Cache.isExpired (cache w) (clock (ticks w)) (Cache.timestamp e) = false ->
  cache_get key w
  = (Some (Cache.value e),
     World (heap w) (cache w) (processed w) (errors w) (calls w)
           (S (ticks w))).
Proof.
  intros Hk Hlive. unfold Plugin.cache_get, Cache.get.
  by rewrite Hk, (keyvExpired_false _ _ _ Hlive), Hlive.
Qed.

Lemma attrs_of_set_attrs i a w j :
  attrs_of (set_attrs i a w) j = if decide (i = j) then a else attrs_of w j.
Proof.
  unfold attrs_of, set_attrs. simpl. rewrite lookup_insert.
  by destruct (decide (i = j)).
Qed.

(** The visit of an image node whose resolved path has a live cache
    entry, at both readings of the clock. *)
Lemma processImage_hit i ctx w src imagePath e :
  attrs_of w i !! "src" = Some src ->
  attr_truthy (Some src) = true ->
  processed_has src w = false ->
  resolvePublicPath cwd src ctx = inr imagePath ->
  Cache.store (cache w) !! ("image:" +:+ imagePath) = Some e ->
  Cache.isExpired (cache w) (clock (ticks w)) (Cache.timestamp e) = false ->
  Cache.isExpired (cache w) (clock (S (ticks w))) (Cache.timestamp e)
  = false ->
  processImage i ctx w
  = World (<[i := Cache.value e ∪ attrs_of w i]> (heap w)) (cache w)
          (processed w) (errors w) (calls w) (S (S (ticks w))).
Proof.
  intros Hsrc Htruthy Hnew Hres Hk Hlive1 Hlive2.
  unfold Plugin.processImage. rewrite Hsrc, Htruthy, Hnew. simpl.
  unfold Plugin.processImage_try. rewrite Hres.
  unfold Plugin.cache_has. rewrite (cache_get_hit _ w e Hk Hlive1).
  rewrite (cache_get_hit _ _ e); [| exact Hk | exact Hlive2].
  reflexivity.
Qed.

(** What a cache hit writes: the node's attributes are overlaid with
    the whole cached attribute map, whatever keys it holds. A key of
    the cached map takes the cached value, every other key keeps the
    value the node had; the attributes of the other nodes, the cache
    entry, the processed set, the error collector and the processor
    calls do not change. *)
Lemma cache_hit_overlay i ctx w src imagePath e :
  attrs_of w i !! "src" = Some src ->
  attr_truthy (Some src) = true ->
  processed_has src w = false ->
  resolvePublicPath cwd src ctx = inr imagePath ->
  Cache.store (cache w) !! ("image:" +:+ imagePath) = Some e ->
  Cache.isExpired (cache w) (clock (ticks w)) (Cache.timestamp e) = false ->
  Cache.isExpired (cache w) (clock (S (ticks w))) (Cache.timestamp e)
  = false ->
  let w' := processImage i ctx w in
  (forall k v, Cache.value e !! k = Some v -> attrs_of w' i !! k = Some v)
  /\ (forall k, Cache.value e !! k = None ->
                attrs_of w' i !! k = attrs_of w i !! k)
  /\ (forall j, j <> i -> attrs_of w' j = attrs_of w j)
  /\ cache w' = cache w /\ processed w' = processed w
  /\ errors w' = errors w /\ calls w' = calls w.
Proof.
  intros Hsrc Htruthy Hnew Hres Hk Hlive1 Hlive2 w'. subst w'.
  rewrite (processImage_hit i ctx w src imagePath e) by assumption.
  assert (forall a, attrs_of (World (<[i := a]> (heap w)) (cache w)
                   (processed w) (errors w) (calls w) (S (S (ticks w)))) i
                    = a) as Hi.
  { intros a. unfold attrs_of; simpl. by rewrite lookup_insert_eq. }
  split; [| split; [| split; [| done]]].
  - intros k v Hv. rewrite Hi. apply lookup_union_Some_l. exact Hv.
  - intros k Hv. rewrite Hi. by apply lookup_union_r.
  - intros j Hne. unfold attrs_of; simpl. by rewrite lookup_insert_ne.
Qed.

(** What a successful generation stores and writes: the attribute
    object of the node itself, with the five processed fields set. *)
Lemma processImage_generated i ctx w src imagePath w1 r :
  attrs_of w i !! "src" = Some src ->
  attr_truthy (Some src) = true ->
  processed_has src w = false ->
  resolvePublicPath cwd src ctx = inr imagePath ->
  cache_has ("image:" +:+ imagePath) w = (false, w1) ->
  Processor.process (processorOptions opts) fs imagePath
    (Path.join [resourcePath ctx; ".."; outputDir opts]) = inr r ->
  let a := processed_attrs (attrs_of w i) r src in
  processImage i ctx w
  = set_attrs i a
      (processed_add src
         (cache_set ("image:" +:+ imagePath) a (log_call imagePath w1))).
Proof.
  intros Hsrc Htruthy Hnew Hres Hhas Hproc a.
  unfold Plugin.processImage. rewrite Hsrc, Htruthy, Hnew. simpl.
  unfold Plugin.processImage_try. rewrite Hres, Hhas. simpl. rewrite Hproc.
  apply cache_has_frame in Hhas as (Hh & _).
  assert (attrs_of (log_call imagePath w1) i = attrs_of w i) as ->
    by (unfold attrs_of; simpl; by rewrite Hh).
  reflexivity.
Qed.

Lemma processed_attrs_keeps a r src k :
  k ∉ ["srcset"; "sizes"; "width"; "height"; "originalSrc"] ->
  processed_attrs a r src !! k = a !! k.
Proof.
  intros Hk. unfold processed_attrs.
  rewrite !lookup_insert_ne; [done | | | | |];
    intros <-; apply Hk; set_solver.
Qed.

(** Once a source has been generated it is in [#processed] ... *)
Lemma generated_source_processed i ctx w s imagePath w1 r :
  attrs_of w i !! "src" = Some (AStr s) ->
  attr_truthy (Some (AStr s)) = true ->
  processed_has (AStr s) w = false ->
  resolvePublicPath cwd (AStr s) ctx = inr imagePath ->
  cache_has ("image:" +:+ imagePath) w = (false, w1) ->
  Processor.process (processorOptions opts) fs imagePath
    (Path.join [resourcePath ctx; ".."; outputDir opts]) = inr r ->
  s ∈ processed (processImage i ctx w)
  /\ attrs_of (processImage i ctx w) i !! "src" = Some (AStr s)
  /\ calls (processImage i ctx w) = calls w ++ [imagePath].
Proof.
  intros Hsrc Htruthy Hnew Hres Hhas Hproc.
  rewrite (processImage_generated i ctx w (AStr s) imagePath w1 r)
    by assumption.
  apply cache_has_frame in Hhas as (_ & _ & _ & Hcalls).
  split; [simpl; set_solver |]. split; [| simpl; by rewrite Hcalls].
  rewrite attrs_of_set_attrs. rewrite decide_True by done.
  rewrite processed_attrs_keeps; [done |].
  repeat (apply not_elem_of_cons; split; [done |]). apply not_elem_of_nil.
Qed.

(** ... and every later visit of a node with that source, whatever the
    node, does nothing. *)
Lemma visit_already_processed ctx i t w s :
  attrs_of w i !! "src" = Some (AStr s) ->
  s ∈ processed w ->
  visit ctx (i, t) w = w.
Proof.
  intros Hsrc Hin. unfold Plugin.visit. simpl.
  destruct (isImageNode t (attrs_of w i)); [| done].
  by apply (processImage_already_processed i ctx w s).
Qed.

(** So a second node with the same source, visited after the first was
    generated, keeps the attributes it had: it is not merged. *)
Lemma repeated_source_skipped i j t ctx w s imagePath w1 r :
  i <> j ->
  attrs_of w i !! "src" = Some (AStr s) ->
  attrs_of w j !! "src" = Some (AStr s) ->
  attr_truthy (Some (AStr s)) = true ->
  processed_has (AStr s) w = false ->
  resolvePublicPath cwd (AStr s) ctx = inr imagePath ->
  cache_has ("image:" +:+ imagePath) w = (false, w1) ->
  Processor.process (processorOptions opts) fs imagePath
    (Path.join [resourcePath ctx; ".."; outputDir opts]) = inr r ->
  let w' := processImage i ctx w in
  attrs_of w' j = attrs_of w j /\ visit ctx (j, t) w' = w'.
Proof.
  intros Hne Hi Hj Htruthy Hnew Hres Hhas Hproc w'.
  assert (attrs_of w' j = attrs_of w j) as Hkeep.
  { subst w'.
    rewrite (processImage_generated i ctx w (AStr s) imagePath w1 r)
      by assumption.
    rewrite attrs_of_set_attrs, decide_False by done.
    apply cache_has_frame in Hhas as (Hheap & _).
    unfold attrs_of; simpl. by rewrite Hheap. }
  split; [exact Hkeep |].
  apply (visit_already_processed ctx j t w' s).
  - by rewrite Hkeep.
  - by apply (generated_source_processed i ctx w s imagePath w1 r).
Qed.

(** A pass over nodes whose sources are all in [#processed] changes
    nothing: no attribute, no cache entry, no call, no clock reading. *)
Lemma processVisits_all_processed ctx l w :
  (forall i t, In (i, t) l -> isImageNode t (attrs_of w i) = true ->
     exists s, attrs_of w i !! "src" = Some (AStr s) /\ s ∈ processed w) ->
  processVisits ctx l w = w.
Proof.
  induction l as [| [i t] l IH]; intros Hall; [done |].
  unfold Plugin.processVisits. simpl.
  assert (visit ctx (i, t) w = w) as ->.
  { unfold Plugin.visit. simpl.
    destruct (isImageNode t (attrs_of w i)) eqn:Himg; [| done].
    destruct (Hall i t) as (s & Hsrc & Hin); [by left | done |].
    by apply (processImage_already_processed i ctx w s). }
  apply IH. intros j u Hj. apply Hall. by right.
Qed.

(** A second pass over a document whose image nodes all carry a source
    that is in [#processed], as a pass leaves them when every image was
    generated, merged or skipped, returns the document and changes
    nothing. *)
Corollary second_pass_same_object doc ctx w :
  (forall i t, In (i, t) (visits doc) ->
     isImageNode t (attrs_of w i) = true ->
     exists s, attrs_of w i !! "src" = Some (AStr s) /\ s ∈ processed w) ->
  processContent (Some doc) ctx w = (Some doc, w).
Proof.
  intros Hall. unfold Plugin.processContent.
  destruct (negb (String.eqb (type doc) "doc")); [done |].
  by rewrite processNode_visits, processVisits_all_processed.
Qed.

(** C10. A [null] or [undefined] argument, or a root whose type is not
    ["doc"], is returned as it is; the world is untouched: no node is
    visited, no error recorded, no attribute, cache entry or clock
    reading changes. *)
Theorem C10_not_a_document content ctx w :
  content = None \/ (exists doc, content = Some doc /\ type doc <> "doc") ->
  processContent content ctx w = (content, w).
Proof.
  intros [-> | (doc & -> & Htype)]; [reflexivity |].
  unfold Plugin.processContent.
  destruct (String.eqb_spec (type doc) "doc"); [contradiction | reflexivity].
Qed.

End PluginProperties.

(** C10, on [null] and on a paragraph given as the root. *)
Lemma C10_not_a_document_witness :
  let w := Plugin.init Sample.opts Sample.twins_heap in
  let p := Plugin.Node 0 "paragraph" (Some [Plugin.Node 1 "image" None]) in
  Plugin.processContent Sample.cwd Sample.fs Sample.clock Sample.opts
    None Sample.ctx w = (None, w)
  /\ Plugin.processContent Sample.cwd Sample.fs Sample.clock Sample.opts
       (Some p) Sample.ctx w = (Some p, w).
Proof.
  intros w p. split.
  - apply C10_not_a_document. left. reflexivity.
  - apply C10_not_a_document. right. exists p. split; [reflexivity |].
    simpl. discriminate.
Defined.

(** ** Runs on the sample site *)
Section SampleRuns.
Import Utils Plugin Sample.

(** C3, on a document with a missing image before a good one: the
    missing image gives one record and keeps its attributes; the good
    one is processed. *)
Lemma C3_failure_isolation_witness :
  let w := init opts broken_heap in
  let w1 := processImage cwd fs clock opts 1 ctx w in
  errors w1
  = [ErrorRecord "Failed to process image /nonexistent.jpg: ENOENT: no such file or directory, open '/site/public/nonexistent.jpg'"]
  /\ heap w1 = heap w
  /\ processed w1 = processed w
  /\ processContent cwd fs clock opts (Some twins) ctx w
     = (Some twins, processVisits cwd fs clock opts ctx [(2%nat, "image")] w1)
  /\ look (run clock twins w) 2 "srcset"
     = Some (AStr "/images/test-sm.webp 640w").
Proof.
  intros w w1.
  pose proof (C3_failure_isolation cwd fs clock opts ctx w twins
                [(0%nat, "doc")] 1 [(2%nat, "image")]
                (AStr "/nonexistent.jpg")
                "ENOENT: no such file or directory, open '/site/public/nonexistent.jpg'"
                (log_call "/site/public/nonexistent.jpg" w)
                eq_refl eq_refl eq_refl eq_refl eq_refl) as H.
  destruct H as (He & Hh & Hp & Hc).
  { apply throws_process; reflexivity. }
  split; [exact He |]. split; [exact Hh |]. split; [exact Hp |].
  split; [exact Hc |]. vm_compute. reflexivity.
Defined.

(** C6: two nodes that name one file in two ways, on a new plugin. The
    first is generated and keeps its own [alt] and [src]; what is
    cached for the file is the whole attribute object of that node,
    its [alt] and [src] included, not the five processed fields alone.
    The second node is merged on a cache hit (the processor ran once),
    and its [alt] and [src], which are not among the five processed
    fields, are replaced by those of the first node; its [title], which
    the cached object lacks, is kept. *)
Theorem C6_cache_hit_overwrites_attributes :
  let w := init opts alias_heap in
  let w' := run clock twins w in
  look w 2 "alt" = Some (AStr "Logo")
  /\ look w 2 "src" = Some (AStr "../../public/test.jpg")
  /\ calls w' = ["/site/public/test.jpg"]
  /\ errors w' = []
  /\ look w' 1 "alt" = Some (AStr "Hero")
  /\ look w' 1 "src" = Some (AStr "/test.jpg")
  /\ (exists e,
        Cache.store (cache w') !! "image:/site/public/test.jpg" = Some e
        /\ Cache.value e !! "alt" = Some (AStr "Hero")
        /\ Cache.value e !! "src" = Some (AStr "/test.jpg")
        /\ Cache.value e !! "srcset"
           = Some (AStr "/images/test-sm.webp 640w"))
  /\ look w' 2 "srcset" = Some (AStr "/images/test-sm.webp 640w")
  /\ look w' 2 "originalSrc" = Some (AStr "/test.jpg")
  /\ look w' 2 "alt" = Some (AStr "Hero")
  /\ look w' 2 "src" = Some (AStr "/test.jpg")
  /\ look w' 2 "title" = Some (AStr "Our logo").
Proof.
  vm_compute. split_and!; try reflexivity.
  eexists. split; [reflexivity |]. split_and!; reflexivity.
Qed.

(** C1: two different nodes with the same source, on a new plugin. The
    processor runs once and the first node is rewritten, but the second
    node is returned by the processed-set test before the cache is
    consulted: it ends the pass with its original attributes and none
    of the processed fields. *)
Theorem C1_repeated_source_left_unprocessed :
  let w := init opts twins_heap in
  let w' := run clock twins w in
  calls w' = ["/site/public/test.jpg"]
  /\ errors w' = []
  /\ look w' 1 "srcset" = Some (AStr "/images/test-sm.webp 640w")
  /\ look w' 1 "originalSrc" = Some (AStr "/test.jpg")
  /\ attrs_of w' 2 = attrs_of w 2
  /\ look w' 2 "srcset" = None /\ look w' 2 "sizes" = None
  /\ look w' 2 "width" = None /\ look w' 2 "height" = None
  /\ look w' 2 "originalSrc" = None.
Proof. vm_compute. repeat split. Qed.

(** The test of the repository fills an array with one node object:
    the five places are one node, which is why all of them show the
    processed fields. *)
Example filled_array_is_one_node :
  let w' := run clock filled (init opts twins_heap) in
  visits filled = (0%nat, "doc") :: replicate 5 (1%nat, "image")
  /\ calls w' = ["/site/public/test.jpg"]
  /\ look w' 1 "srcset" = Some (AStr "/images/test-sm.webp 640w").
Proof. vm_compute. repeat split. Qed.

(** C2: (a) a page is processed, then parsed again and processed again
    by the same plugin, with a live cache entry for its image: the
    second pass does not call the processor, but it does not rewrite
    the image node either. (b) Three nodes name one file; the entry
    written for the first expires between the two cache reads made for
    the second, and a new one is written for the third. The second
    pass over the same document calls the processor for nothing and
    records no error, yet it changes the second node. *)
Theorem C2_second_pass_differs :
  (let w0 := init opts reparsed_heap in
   let w1 := run clock page w0 in
   let w2 := run clock page_again w1 in
   attrs_of w0 1 = attrs_of w0 11
   /\ look w1 1 "srcset" = Some (AStr "/images/test-sm.webp 640w")
   /\ fst (cache_get clock "image:/site/public/test.jpg" w1)
      = Some (attrs_of w1 1)
   /\ calls w2 = calls w1
   /\ look w2 11 "srcset" = None
   /\ attrs_of w2 11 = attrs_of w0 11)
  /\
  (let w1 := run slow_clock trio (init opts trio_heap) in
   let w2 := run slow_clock trio w1 in
   errors w1 = [] /\ errors w2 = [] /\ calls w2 = calls w1
   /\ look w1 2 "srcset" = None
   /\ look w1 2 "src" = Some (AStr "../../public/test.jpg")
   /\ look w2 2 "srcset" = Some (AStr "/images/test-sm.webp 640w")
   /\ look w2 2 "src" = Some (AStr "/./test.jpg")).
Proof. vm_compute. repeat split. Qed.

End SampleRuns.

(** * Further properties *)

(** ** The cache: deletion, clearing, the counter *)
Section CacheMore.
Context {V : Type}.
Implicit Types (c : Cache.t V) (v : V) (key : string).

Lemma cache_eta c : Cache.Make (Cache.store c) (Cache.ttl c) (Cache.size c) = c.
Proof. by destruct c. Qed.

(** X1. Setting a key that was absent and deleting it again gives back the
    cache as it was, counter included; [delete] reports the removal. *)
Theorem set_delete_round_trip now key v c :
  Cache.store c !! key = None ->
  Cache.delete key (Cache.set now key v c) = (true, c).
Proof.
  intros Hk. unfold Cache.delete. rewrite cache_set_lookup.
  unfold Cache.set. simpl. f_equal.
  rewrite delete_insert_eq, delete_id by done.
  replace (Cache.size c + 1 - 1) with (Cache.size c) by lia.
  apply cache_eta.
Qed.

(** X2. [delete] reports [true] exactly when the key had an entry; the key
    is absent afterwards, the other keys keep their entries, and
    deleting again reports [false] and changes nothing: the counter
    goes down once. *)
Theorem delete_once key c :
  let '(deleted, c') := Cache.delete key c in
  (deleted = true <-> is_Some (Cache.store c !! key))
  /\ Cache.store c' !! key = None
  /\ (forall key', key' <> key ->
        Cache.store c' !! key' = Cache.store c !! key')
  /\ Cache.size c' = (if deleted then Cache.size c - 1 else Cache.size c)
  /\ Cache.delete key c' = (false, c').
Proof.
  unfold Cache.delete. destruct (Cache.store c !! key) as [e |] eqn:Hk.
  - simpl. rewrite lookup_delete_eq.
    split; [split; [by eexists | done] |]. split; [done |].
    split; [intros key' Hne; by apply lookup_delete_ne |]. done.
  - rewrite Hk. split; [split; [done | by intros [? ?]] |]. done.
Qed.

(** A read touches at most the entry of its own key, and only to drop
    it. *)
Lemma get_store now key c :
  Cache.store (snd (Cache.get now key c)) = Cache.store c
  \/ (fst (Cache.get now key c) = None
      /\ Cache.store (snd (Cache.get now key c))
         = delete key (Cache.store c)).
Proof.
  unfold Cache.get, Cache.delete.
  destruct (Cache.store c !! key) as [e |]; [| by left].
  destruct (Cache.keyvExpired c now (Cache.timestamp e)); [by right |].
  destruct (Cache.isExpired c now (Cache.timestamp e)); [by right | by left].
Qed.

(** X3. Once a read of a key has returned [null], every further read of it,
    at any time, returns [null] and changes nothing, and the entries of
    the other keys are as they were: an expired entry does not come
    back. *)
Theorem miss_is_stable now key c :
  fst (Cache.get now key c) = None ->
  let c' := snd (Cache.get now key c) in
  (forall now', Cache.get now' key c' = (None, c'))
  /\ (forall key', key' <> key ->
        Cache.store c' !! key' = Cache.store c !! key').
Proof.
  intros Hmiss c'. subst c'.
  assert (Cache.store (snd (Cache.get now key c)) !! key = None
          /\ forall key', key' <> key ->
               Cache.store (snd (Cache.get now key c)) !! key'
               = Cache.store c !! key') as [Hgone Hothers].
  { unfold Cache.get, Cache.delete in *.
    destruct (Cache.store c !! key) as [e |] eqn:Hk; [| done].
    destruct (Cache.keyvExpired c now (Cache.timestamp e)).
    { simpl. split; [apply lookup_delete_eq |].
      intros key' Hne. by apply lookup_delete_ne. }
    destruct (Cache.isExpired c now (Cache.timestamp e)); [| done].
    simpl. split; [apply lookup_delete_eq |].
    intros key' Hne. by apply lookup_delete_ne. }
  split; [| done]. intros now'. by apply cache_get_missing.
Qed.

(** X4. [has] answers as [get] does and leaves the same cache. When it
    answers [true] the cache is unchanged, and a [get] at that time or
    before returns a value; a [get] at a later time need not. *)
Theorem has_then_get now key c :
  fst (Cache.has now key c) = true ->
  snd (Cache.has now key c) = c
  /\ forall now', now' <= now ->
       exists v, Cache.get now' key c = (Some v, c).
Proof.
  unfold Cache.has, Cache.get, Cache.keyvExpired, Cache.isExpired.
  destruct (Cache.store c !! key) as [e |]; [| done].
  destruct (negb (Cache.ttl c =? 0)
            && (Cache.timestamp e + Cache.ttl c <? now)) eqn:Hkeyv;
    [done |].
  destruct (Z.ltb_spec (Cache.ttl c) (now - Cache.timestamp e)); [done |].
  intros _. split; [done |]. intros now' Hle. exists (Cache.value e).
  destruct (Z.ltb_spec (Cache.timestamp e + Cache.ttl c) now'); [lia |].
  rewrite andb_false_r.
  destruct (Z.ltb_spec (Cache.ttl c) (now' - Cache.timestamp e)); [lia | done].
Qed.

(** X5. After [clear] every key is absent, whatever the time of the read:
    [get] returns [null], [has] and [delete] answer [false], none of
    them changes the cache, and the counter is zero. *)
Theorem clear_empties c :
  let c' := Cache.clear c in
  Cache.size c' = 0 /\ Cache.ttl c' = Cache.ttl c
  /\ forall now key,
       Cache.get now key c' = (None, c')
       /\ Cache.has now key c' = (false, c')
       /\ Cache.delete key c' = (false, c').
Proof.
  split; [done |]. split; [done |]. intros now key.
  unfold Cache.has, Cache.get, Cache.delete, Cache.clear. simpl.
  by rewrite lookup_empty.
Qed.


Lemma step_counter (o : CacheTrace.op V) c :
  Z.of_nat (size (Cache.store c)) <= Cache.size c ->
  Z.of_nat (size (Cache.store (CacheTrace.step o c)))
  <= Cache.size (CacheTrace.step o c)
  /\ Cache.ttl (CacheTrace.step o c) = Cache.ttl c.
Proof.
  intros Hle.
  assert (forall key e, Cache.store c !! key = Some e ->
            Z.of_nat (size (delete key (Cache.store c)))
            <= Cache.size c - 1) as Hdel.
  { intros key e Hk.
    pose proof (map_size_delete_Some key (Cache.store c) (mk_is_Some _ _ Hk))
      as Hsz.
    pose proof (map_size_ne_0_lookup_2 (Cache.store c) key
                  (mk_is_Some _ _ Hk)) as Hne.
    lia. }
  destruct o as [now key v | now key | now key | key |]; simpl.
  - split; [| done].
    destruct (Cache.store c !! key) as [e |] eqn:Hk.
    + rewrite map_size_insert_Some by (by eexists). lia.
    + rewrite map_size_insert_None by done. lia.
  - unfold Cache.get, Cache.delete.
    destruct (Cache.store c !! key) as [e |] eqn:Hk; [| done].
    destruct (Cache.keyvExpired c now (Cache.timestamp e)).
    { simpl. split; [| done]. specialize (Hdel key e Hk). lia. }
    destruct (Cache.isExpired c now (Cache.timestamp e)); [| done].
    simpl. split; [by eapply Hdel | done].
  - unfold Cache.has, Cache.get, Cache.delete.
    destruct (Cache.store c !! key) as [e |] eqn:Hk; [| done].
    destruct (Cache.keyvExpired c now (Cache.timestamp e)).
    { simpl. split; [| done]. specialize (Hdel key e Hk). lia. }
    destruct (Cache.isExpired c now (Cache.timestamp e)); [| done].
    simpl. split; [by eapply Hdel | done].
  - unfold Cache.delete.
    destruct (Cache.store c !! key) as [e |] eqn:Hk; [| done].
    simpl. split; [by eapply Hdel | done].
  - rewrite map_size_empty. done.
Qed.

(** X6. Whatever calls are made on a new cache, the counter [size] is at
    least the number of entries in the store, and the ttl is the one
    given at construction. *)
Theorem counter_bounds_entries (ttl : Z) (ops : list (CacheTrace.op V)) :
  let c := CacheTrace.run ops (Cache.new ttl) in
  Z.of_nat (size (Cache.store c)) <= Cache.size c /\ Cache.ttl c = ttl.
Proof.
  simpl. unfold CacheTrace.run.
  assert (forall c0,
            Z.of_nat (size (Cache.store c0)) <= Cache.size c0 ->
            let c := fold_left (fun c o => CacheTrace.step o c) ops c0 in
            Z.of_nat (size (Cache.store c)) <= Cache.size c
            /\ Cache.ttl c = Cache.ttl c0) as Hgen.
  { induction ops as [| o ops IH]; intros c0 Hle; simpl; [done |].
    destruct (step_counter o c0 Hle) as [Hle' Httl].
    destruct (IH _ Hle') as [? ?]. split; [done | congruence]. }
  apply Hgen. simpl. rewrite map_size_empty. done.
Qed.

(** X7. The counter counts calls of [set], not keys: setting a key that has
    an entry replaces the entry and still adds one to the counter. *)
Theorem overwrite_counts_twice now key v c :
  is_Some (Cache.store c !! key) ->
  size (Cache.store (Cache.set now key v c)) = size (Cache.store c)
  /\ Cache.size (Cache.set now key v c) = Cache.size c + 1.
Proof.
  intros Hk. split; [by apply map_size_insert_Some | done].
Qed.

End CacheMore.

(** On a cache of ttl 100 holding one entry written at time 0. *)
Lemma set_delete_round_trip_witness :
  Cache.delete "k" (Cache.set 0 "k" 7%nat (Cache.new 100))
  = (true, Cache.new 100).
Proof. apply set_delete_round_trip. reflexivity. Defined.

Lemma miss_is_stable_witness :
  let c := Cache.set 0 "k" 7%nat (Cache.new 100) in
  fst (Cache.get 101 "k" c) = None
  /\ Cache.get 50 "k" (snd (Cache.get 101 "k" c))
     = (None, snd (Cache.get 101 "k" c)).
Proof.
  intros c. split; [reflexivity |].
  destruct (miss_is_stable 101 "k" c eq_refl) as [Hstable _].
  apply Hstable.
Defined.

Lemma has_then_get_witness :
  let c := Cache.set 0 "k" 7%nat (Cache.new 100) in
  fst (Cache.has 100 "k" c) = true
  /\ (exists v, Cache.get 99 "k" c = (Some v, c))
  /\ fst (Cache.get 101 "k" c) = None.
Proof.
  intros c. split; [reflexivity |]. split; [| reflexivity].
  destruct (has_then_get 100 "k" c eq_refl) as [_ Hget].
  apply Hget. lia.
Defined.

Lemma overwrite_counts_twice_witness :
  let c := Cache.set 0 "k" 7%nat (Cache.new 100) in
  size (Cache.store (Cache.set 1 "k" 8%nat c)) = 1%nat
  /\ Cache.size (Cache.set 1 "k" 8%nat c) = 2.
Proof.
  intros c.
  destruct (overwrite_counts_twice 1 "k" 8%nat c) as [Hentries Hcounter].
  { eexists. apply cache_set_lookup. }
  split; [rewrite Hentries; reflexivity | exact Hcounter].
Defined.

(** ** The processor: layout and bounds of the variants *)
Section ProcessorMore.
Import Processor.

Lemma round_div_mono (a a' b : Z) :
  0 < b -> a <= a' -> round_div a b <= round_div a' b.
Proof.
  intros Hb Ha. unfold round_div. apply Z.div_le_mono; lia.
Qed.

Lemma round_div_exact (h w : Z) : 0 < w -> round_div (h * w) w = h.
Proof. intros Hw. symmetry. apply round_div_unique; [done | nia]. Qed.

Lemma round_div_zero (b : Z) : 0 < b -> round_div 0 b = 0.
Proof. intros Hb. symmetry. apply round_div_unique; lia. Qed.

(** X8. A size at least as wide as the source gives a variant of exactly
    the source's dimensions: nothing is enlarged and the height is not
    off by a rounding. *)
Theorem native_size_when_target_is_wider opts meta name size fmt dir :
  0 < meta_width meta ->
  meta_width meta <= size_width size ->
  let v := createVariant opts meta name size fmt dir in
  variant_width v = meta_width meta /\ variant_height v = meta_height meta.
Proof.
  intros Hw Hle v. subst v. simpl.
  rewrite Z.min_r by done. split; [done |]. by apply round_div_exact.
Qed.

(** X9. For a source of positive width and non-negative height, a variant
    of a non-negative target width lies within the source's width and
    height; and a wider target never gives a narrower or lower
    variant. *)
Theorem variant_within_source opts meta name size size' fmt dir :
  0 < meta_width meta ->
  0 <= meta_height meta ->
  0 <= size_width size <= size_width size' ->
  let v := createVariant opts meta name size fmt dir in
  let v' := createVariant opts meta name size' fmt dir in
  0 <= variant_width v <= meta_width meta
  /\ 0 <= variant_height v <= meta_height meta
  /\ variant_width v <= variant_width v'
  /\ variant_height v <= variant_height v'.
Proof.
  intros Hw Hh [Ht Htt] v v'. subst v v'. simpl.
  split; [lia |]. split; [| split; [lia |]].
  - split.
    + rewrite <- (round_div_zero (meta_width meta)) by done.
      apply round_div_mono; [done | nia].
    + rewrite <- (round_div_exact (meta_height meta) (meta_width meta))
        at 2 by done.
      apply round_div_mono; [done | nia].
  - apply round_div_mono; [done | nia].
Qed.

Lemma map_flat_map {A B C} (f : B -> C) (g : A -> list B) (l : list A) :
  map f (flat_map g l) = flat_map (fun x => map f (g x)) l.
Proof.
  induction l as [| x l IH]; [done |].
  simpl. by rewrite map_app, IH.
Qed.

Lemma flat_map_length_const {A B} (g : A -> list B) (l : list A) n :
  (forall x, length (g x) = n) ->
  length (flat_map g l) = (length l * n)%nat.
Proof.
  intros Hg. induction l as [| x l IH]; [done |].
  simpl. by rewrite length_app, IH, Hg.
Qed.

(** X10. A successful [process] yields one variant for each size and
    format, sizes outermost and formats innermost, in the configured
    order, and each variant is the one of its own size and format: its
    file is named [name-suffix.format] after them, in the output
    directory and under the public path, and its width is the size's,
    capped by the source's.  The [srcset] lists those URLs with those
    widths in that order.  With no size or no format there is no
    variant and the [srcset] is empty. *)
Theorem variants_layout opts fs imagePath dir r :
  process opts fs imagePath dir = inr r ->
  let file size fmt :=
    Path.parse_name imagePath +:+ "-" +:+ size_suffix size +:+ "."
    +:+ fmt in
  map (fun v => (variant_width v, variant_format v, variant_path v,
                 variant_url v)) (variants r)
  = flat_map (fun size =>
      map (fun fmt =>
             (Z.min (size_width size) (width r), fmt,
              Path.join [dir; file size fmt],
              publicPath opts +:+ "/" +:+ file size fmt))
          (formats opts)) (sizes opts)
  /\ srcset r
     = String.concat ", "
         (flat_map (fun size =>
            map (fun fmt =>
                   (publicPath opts +:+ "/" +:+ file size fmt) +:+ " "
                   +:+ Z_to_string (Z.min (size_width size) (width r))
                   +:+ "w")
                (formats opts)) (sizes opts))
  /\ length (variants r) = (length (sizes opts) * length (formats opts))%nat
  /\ map variant_format (variants r)
     = flat_map (fun _ => formats opts) (sizes opts)
  /\ (sizes opts = [] \/ formats opts = [] ->
        variants r = [] /\ srcset r = "").
Proof.
  intros Hp file.
  apply process_inr in Hp
    as (f & _ & Hwidth & _ & _ & _ & Hsrcset & _ & Hvs).
  apply generateVariants_inr in Hvs as [Hvs _].
  rewrite Hsrcset, Hvs, Hwidth. clear Hsrcset Hvs Hwidth.
  unfold generateSrcset. rewrite !map_flat_map.
  split_and!.
  - apply flat_map_ext. intros size. by rewrite map_map.
  - f_equal. apply flat_map_ext. intros size. by rewrite map_map.
  - apply flat_map_length_const. intros size. apply length_map.
  - apply flat_map_ext. intros size. rewrite map_map. apply map_id.
  - intros [-> | ->]; [done |].
    induction (sizes opts) as [| size l [IHv IHs]]; [done |].
    split; [exact IHv |]. simpl in *. exact IHs.
Qed.


End ProcessorMore.

(** On a source of 500 by 300: a size of width 640 gives 500 by 300, and
    a size of width 250 gives 250 by 150. *)
Lemma native_size_when_target_is_wider_witness :
  let v := Processor.createVariant Sample.processorOptions
             (Processor.Metadata 500 300) "test" (Processor.Size 640 "sm")
             "webp" "/site/cache" in
  Processor.variant_width v = 500 /\ Processor.variant_height v = 300.
Proof.
  apply (native_size_when_target_is_wider Sample.processorOptions
           (Processor.Metadata 500 300) "test" (Processor.Size 640 "sm")
           "webp" "/site/cache"); simpl; lia.
Defined.

Lemma variant_within_source_witness :
  let v := Processor.createVariant Sample.processorOptions
             (Processor.Metadata 500 300) "test" (Processor.Size 250 "xs")
             "webp" "/site/cache" in
  0 <= Processor.variant_width v <= 500
  /\ 0 <= Processor.variant_height v <= 300.
Proof.
  intros v.
  destruct (variant_within_source Sample.processorOptions
              (Processor.Metadata 500 300) "test" (Processor.Size 250 "xs")
              (Processor.Size 640 "sm") "webp" "/site/cache")
    as (Hw & Hh & _); simpl; try lia.
  split; [exact Hw | exact Hh].
Defined.

(** The sample JPEG with two sizes in two formats: four variants, the
    wider size capped at the source's 1920. *)
Lemma variants_layout_witness :
  exists r,
    Processor.process Sample.galleryOptions Sample.fs
      "/site/public/test.jpg" "/site/cache" = inr r
    /\ map (fun v => (Processor.variant_width v, Processor.variant_format v,
                      Processor.variant_path v, Processor.variant_url v))
           (Processor.variants r)
       = [(640, "webp", "/site/cache/test-sm.webp", "/images/test-sm.webp");
          (640, "avif", "/site/cache/test-sm.avif", "/images/test-sm.avif");
          (1920, "webp", "/site/cache/test-xl.webp", "/images/test-xl.webp");
          (1920, "avif", "/site/cache/test-xl.avif", "/images/test-xl.avif")]
    /\ Processor.srcset r
       = "/images/test-sm.webp 640w, /images/test-sm.avif 640w, /images/test-xl.webp 1920w, /images/test-xl.avif 1920w".
Proof.
  destruct (Processor.process Sample.galleryOptions Sample.fs
              "/site/public/test.jpg" "/site/cache") as [msg | r] eqn:Hp;
    [vm_compute in Hp; discriminate |].
  assert (Processor.width r = 1920) as Hw
    by (vm_compute in Hp; injection Hp as <-; reflexivity).
  destruct (variants_layout Sample.galleryOptions Sample.fs
              "/site/public/test.jpg" "/site/cache" r Hp)
    as (Hlayout & Hsrcset & _).
  exists r. split; [reflexivity |]. split.
  - rewrite Hlayout, Hw. vm_compute. reflexivity.
  - rewrite Hsrcset, Hw. vm_compute. reflexivity.
Defined.



(** ** Resolved paths *)
Section ResolutionMore.
Import Utils.

(** X12. With an absolute working directory, a resolved image path is
    canonical: ["/"] followed by names separated by ["/"], with no
    empty, [.] or [..] segment; resolving it again gives it back. Two
    sources that denote one file have one cache key. *)
Theorem resolved_path_is_canonical cwd s ctx p :
  Path.isAbsolute cwd = true ->
  resolvePublicPath cwd (AStr s) ctx = inr p ->
  (exists names,
      Forall (fun x => Path.is_name x = true) names
      /\ p = "/" +:+ String.concat "/" names)
  /\ Path.resolve cwd [p] = p.
Proof.
  intros Hcwd Hres.
  assert (exists args, p = Path.resolve cwd args) as [args ->].
  { unfold resolvePublicPath in Hres.
    destruct (String.prefix "/" s); injection Hres as <-; by eexists. }
  destruct (resolve_rendered cwd args Hcwd) as (names & Hnames & _ & _ & ->).
  split; [by exists names |].
  unfold Path.resolve.
  change (rev ["/" +:+ String.concat "/" names] ++ [cwd])
    with ["/" +:+ String.concat "/" names; cwd].
  change (Path.resolve_scan ["/" +:+ String.concat "/" names; cwd])
    with (true, Path.segments ("/" +:+ String.concat "/" names)).
  cbn [negb]. unfold Path.normalizeString.
  by rewrite normalize_rendered.
Qed.

Lemma segments_cons_slash s : Path.segments ("/" +:+ s) = "" :: Path.segments s.
Proof. reflexivity. Qed.

Lemma segments_dot_dot s :
  Path.segments ("../" +:+ s) = ".." :: Path.segments s.
Proof. reflexivity. Qed.

Lemma segments_dot s : Path.segments ("./" +:+ s) = "." :: Path.segments s.
Proof. reflexivity. Qed.

(** X13. The public root is not enforced. A source that begins with two
    separators is resolved as the absolute path after the first one,
    whatever the context; a source that begins with [/../] is resolved
    beside the public directory, not inside it. *)
Theorem public_root_is_not_enforced cwd s ctx :
  resolvePublicPath cwd (AStr ("//" +:+ s)) ctx
  = inr (Path.resolve cwd ["/" +:+ s])
  /\ resolvePublicPath cwd (AStr ("/../" +:+ s)) ctx
     = inr (Path.resolve cwd [resourcePath ctx; ".."; "./" +:+ s]).
Proof.
  split; [reflexivity |].
  change (resolvePublicPath cwd (AStr ("/../" +:+ s)) ctx)
    with (inr (B := string)
            (Path.resolve cwd [resourcePath ctx; ".."; "public"; "../" +:+ s])
          : string + string).
  f_equal. unfold Path.resolve.
  change (rev [resourcePath ctx; ".."; "public"; "../" +:+ s] ++ [cwd])
    with (("../" +:+ s) :: "public" :: rev [resourcePath ctx; ".."] ++ [cwd]).
  change (rev [resourcePath ctx; ".."; "./" +:+ s] ++ [cwd])
    with (("./" +:+ s) :: rev [resourcePath ctx; ".."] ++ [cwd]).
  remember ("../" +:+ s) as up eqn:Hup.
  remember ("./" +:+ s) as here eqn:Hhere.
  rewrite (resolve_scan_cons up), (resolve_scan_cons here).
  rewrite (resolve_scan_cons "public").
  assert (String.eqb up "" = false /\ Path.isAbsolute up = false
          /\ String.eqb here "" = false /\ Path.isAbsolute here = false)
    as (-> & -> & -> & ->) by (subst; done).
  change (String.eqb "public" "") with false.
  change (Path.isAbsolute "public") with false.
  cbn [fst snd]. subst up here.
  rewrite segments_dot_dot, segments_dot.
  destruct (Path.resolve_scan (rev [resourcePath ctx; ".."] ++ [cwd]))
    as [a segs]. cbn [fst snd].
  assert (Path.normalizeString (negb a)
            ((segs ++ Path.segments "public") ++ ".." :: Path.segments s)
          = Path.normalizeString (negb a) (segs ++ "." :: Path.segments s))
    as ->; [| done].
  unfold Path.normalizeString. f_equal.
  rewrite <- app_assoc, !(normalize_go_app (negb a) []).
  generalize (rev (Path.normalize_go (negb a) [] segs)). intros st.
  reflexivity.
Qed.

End ResolutionMore.

(** ** Where sources made of names are resolved *)
Section ResolutionLayout.
Import Utils.

Lemma prefix_slash_isAbsolute s : String.prefix "/" s = Path.isAbsolute s.
Proof.
  destruct s as [| c s]; [done |].
  unfold Path.isAbsolute, Path.is_slash, Path.slash.
  change (String.prefix "/" (String c s))
    with (if ascii_dec "/" c then String.prefix "" s else false).
  destruct (ascii_dec "/" c) as [<- | Hne]; [by destruct s |].
  symmetry. apply Ascii.eqb_neq. congruence.
Qed.

Lemma concat_names_relative n ns :
  Path.is_name n = true ->
  String.eqb (String.concat "/" (n :: ns)) "" = false
  /\ Path.isAbsolute (String.concat "/" (n :: ns)) = false.
Proof.
  unfold Path.is_name. rewrite !andb_true_iff, !negb_true_iff.
  intros [[[Hne _] _] Hslash].
  destruct n as [| c n]; [done |]. simpl in Hslash.
  apply orb_false_iff in Hslash as [Hc _].
  destruct ns; simpl; by rewrite ?Hc.
Qed.

Lemma removelast_rev {A : Type} (l : list A) :
  rev (tl (rev l)) = removelast l.
Proof.
  induction l as [| x l IH] using rev_ind; [done |].
  rewrite rev_app_distr. simpl. rewrite rev_involutive.
  by rewrite removelast_last.
Qed.

Lemma names_not_dot_dot l :
  Forall (fun x => Path.is_name x = true) l ->
  Forall (fun x => String.eqb x ".." = false) l.
Proof.
  intros Hl. eapply Forall_impl; [exact Hl |]. intros x.
  unfold Path.is_name. rewrite !andb_true_iff, !negb_true_iff. tauto.
Qed.

Lemma normalize_go_pop st l :
  Forall (fun x => String.eqb x ".." = false) st ->
  Path.normalize_go false st (".." :: l) = Path.normalize_go false (tl st) l.
Proof.
  intros Hst. destruct st as [| top below]; [reflexivity |].
  apply Forall_cons_1 in Hst as [Htop _].
  change (Path.normalize_go false (top :: below) (".." :: l))
    with (if String.eqb top ".."
          then Path.normalize_go false (top :: below) l
          else Path.normalize_go false below l).
  by rewrite Htop.
Qed.

(** X14. A source with a leading separator and made of names is resolved
    under [public] in the parent directory of the resource path. *)
Theorem public_source_location cwd ctx rs ns :
  Forall (fun x => Path.is_name x = true) rs ->
  Forall (fun x => Path.is_name x = true) ns ->
  ns <> [] ->
  resourcePath ctx = "/" +:+ String.concat "/" rs ->
  resolvePublicPath cwd (AStr ("/" +:+ String.concat "/" ns)) ctx
  = inr ("/" +:+ String.concat "/" (removelast rs ++ "public" :: ns)).
Proof.
  intros Hrs Hns Hne Hrp.
  destruct ns as [| n ns]; [done |].
  apply Forall_cons_1 in Hns as [Hn Hns].
  destruct (concat_names_relative n ns Hn) as [Hempty Habs].
  unfold resolvePublicPath. rewrite prefix_slash_isAbsolute.
  change (Path.isAbsolute ("/" +:+ String.concat "/" (n :: ns))) with true.
  change (slice1 ("/" +:+ String.concat "/" (n :: ns)))
    with (String.concat "/" (n :: ns)).
  cbv iota. f_equal. unfold Path.resolve. rewrite Hrp.
  change (rev ["/" +:+ String.concat "/" rs; ".."; "public";
               String.concat "/" (n :: ns)] ++ [cwd])
    with [String.concat "/" (n :: ns); "public"; "..";
          "/" +:+ String.concat "/" rs; cwd].
  rewrite (resolve_scan_cons (String.concat "/" (n :: ns))), Hempty, Habs.
  rewrite (resolve_scan_cons "public"), (resolve_scan_cons "..").
  change (Path.resolve_scan ["/" +:+ String.concat "/" rs; cwd])
    with (true, Path.segments ("/" +:+ String.concat "/" rs)).
  change (String.eqb "public" "") with false.
  change (String.eqb ".." "") with false.
  change (Path.isAbsolute "public") with false.
  change (Path.isAbsolute "..") with false.
  change (Path.segments "public") with ["public"].
  change (Path.segments "..") with [".."].
  cbn [fst snd negb]. unfold Path.normalizeString. do 2 f_equal.
  rewrite <- !app_assoc, (normalize_go_app false []).
  rewrite (normalize_rendered rs Hrs).
  rewrite segments_concat;
    [| apply is_name_slash_free; by constructor | done].
  assert (Forall (fun x => Path.is_name x = true) ("public" :: n :: ns))
    as Htail by (by repeat constructor).
  simpl app.
  rewrite normalize_go_pop by (apply Forall_rev; by apply names_not_dot_dot).
  rewrite (normalize_go_names false _ _ Htail).
  by rewrite removelast_rev.
Qed.

(** X15. A source without a leading separator and made of names is resolved
    under the directory of the current file. *)
Theorem relative_source_location cwd ctx ds ns :
  Forall (fun x => Path.is_name x = true) ds ->
  Forall (fun x => Path.is_name x = true) ns ->
  ns <> [] ->
  Path.dirname (currentFile ctx) = "/" +:+ String.concat "/" ds ->
  resolvePublicPath cwd (AStr (String.concat "/" ns)) ctx
  = inr ("/" +:+ String.concat "/" (ds ++ ns)).
Proof.
  intros Hds Hns Hne Hdir.
  destruct ns as [| n ns]; [done |].
  pose proof Hns as Hns'.
  apply Forall_cons_1 in Hns' as [Hn _].
  destruct (concat_names_relative n ns Hn) as [Hempty Habs].
  unfold resolvePublicPath.
  rewrite prefix_slash_isAbsolute, Habs, Hdir.
  f_equal. unfold Path.resolve.
  change (rev ["/" +:+ String.concat "/" ds; String.concat "/" (n :: ns)]
          ++ [cwd])
    with [String.concat "/" (n :: ns); "/" +:+ String.concat "/" ds; cwd].
  rewrite (resolve_scan_cons (String.concat "/" (n :: ns))), Hempty, Habs.
  change (Path.resolve_scan ["/" +:+ String.concat "/" ds; cwd])
    with (true, Path.segments ("/" +:+ String.concat "/" ds)).
  cbn [fst snd negb]. unfold Path.normalizeString. do 2 f_equal.
  rewrite (normalize_go_app false []), (normalize_rendered ds Hds).
  rewrite segments_concat; [| by apply is_name_slash_free | done].
  rewrite (normalize_go_names false (rev ds) _ Hns).
  by rewrite rev_involutive.
Qed.

End ResolutionLayout.

(** On the sample site. *)
Lemma public_source_location_witness :
  Utils.resolvePublicPath Sample.cwd (Utils.AStr "/img/test.png") Sample.ctx
  = inr "/site/public/img/test.png".
Proof.
  apply (public_source_location Sample.cwd Sample.ctx ["site"; "pages"]
           ["img"; "test.png"]); try done.
  all: by repeat constructor.
Defined.

Lemma relative_source_location_witness :
  Utils.resolvePublicPath Sample.cwd (Utils.AStr "img/test.png") Sample.ctx
  = inr "/site/pages/home/img/test.png".
Proof.
  apply (relative_source_location Sample.cwd Sample.ctx
           ["site"; "pages"; "home"] ["img"; "test.png"]); try done.
  all: by repeat constructor.
Defined.

(** On the sample site. *)
Lemma resolved_path_is_canonical_witness :
  exists names,
    Forall (fun x => Path.is_name x = true) names
    /\ "/site/public/test.jpg" = "/" +:+ String.concat "/" names.
Proof.
  destruct (resolved_path_is_canonical Sample.cwd "../../public/./test.jpg"
              Sample.ctx "/site/public/test.jpg" eq_refl eq_refl) as [H _].
  exact H.
Defined.

(** ** Image identifiers *)
Section ImageIdProperties.
Import ImageId.

Lemma list_ind3 {A : Type} (P : list A -> Prop) :
  P [] -> (forall a, P [a]) -> (forall a b, P [a; b]) ->
  (forall a b c l, P l -> P (a :: b :: c :: l)) ->
  forall l, P l.
Proof.
  intros H0 H1 H2 H3 l.
  assert (P l /\ (forall a, P (a :: l)) /\ (forall a b, P (a :: b :: l)))
    as [? _]; [| done].
  induction l as [| x l (IH0 & IH1 & IH2)]; [done |].
  split; [apply IH1 |]. split; [intros a; apply IH2 |].
  intros a b. by apply H3.
Qed.

Lemma value_of_digit (n : N) : (n < 64)%N -> value_of (digit n) = Some n.
Proof.
  intros Hn. destruct n as [| p]; [reflexivity |].
  do 7 (destruct p as [p | p |]; try reflexivity; try lia).
Qed.

Lemma digit_in_alphabet (n : N) : In (digit n) alphabet.
Proof.
  unfold digit.
  destruct (Nat.lt_ge_cases (N.to_nat n) (length alphabet)) as [Hlt | Hge].
  - by apply nth_In.
  - rewrite nth_overflow by done. left. reflexivity.
Qed.

Ltac bytes_arith :=
  cbv beta in *; zify; Z.to_euclidean_division_equations; lia.

(** Reading an identifier gives back the bytes it was made from. *)
Lemma decode_encode (bytes : list N) :
  Forall (fun b => (b < 256)%N) bytes ->
  decode (encode bytes) = Some bytes.
Proof.
  induction bytes as [| b0 | b0 b1 | b0 b1 b2 rest IH] using list_ind3;
    intros Hb.
  - reflexivity.
  - apply Forall_cons_1 in Hb as [H0 _].
    cbn [encode decode].
    rewrite !value_of_digit by bytes_arith.
    do 2 f_equal. bytes_arith.
  - apply Forall_cons_1 in Hb as [H0 Hb].
    apply Forall_cons_1 in Hb as [H1 _].
    cbn [encode decode].
    rewrite !value_of_digit by bytes_arith.
    f_equal. f_equal; [| f_equal]; bytes_arith.
  - apply Forall_cons_1 in Hb as [H0 Hb].
    apply Forall_cons_1 in Hb as [H1 Hb].
    apply Forall_cons_1 in Hb as [H2 Hb].
    cbn [encode decode].
    rewrite !value_of_digit by bytes_arith.
    rewrite (IH Hb).
    f_equal. f_equal; [| f_equal; [| f_equal]]; bytes_arith.
Qed.

Lemma bytes_of_bounded (s : string) :
  Forall (fun b => (b < 256)%N) (bytes_of s).
Proof.
  unfold bytes_of. apply Forall_map. apply Forall_forall.
  intros a _. apply N_ascii_bounded.
Qed.

Lemma bytes_of_inj (s1 s2 : string) : bytes_of s1 = bytes_of s2 -> s1 = s2.
Proof.
  unfold bytes_of. intros Heq.
  rewrite <- (string_of_list_ascii_of_string s1),
          <- (string_of_list_ascii_of_string s2).
  f_equal. revert Heq.
  generalize (list_ascii_of_string s1) (list_ascii_of_string s2).
  intros l1. induction l1 as [| a l1 IH]; intros [| b l2]; simpl; try done.
  intros [= Hab Hl]. f_equal; [| by apply IH].
  by rewrite <- (ascii_N_embedding a), <- (ascii_N_embedding b), Hab.
Qed.

(** The base 64 text gives the bytes back. *)
Lemma generateImageId_same_bytes (p q : string) :
  generateImageId p = generateImageId q -> p = q.
Proof.
  unfold generateImageId. intros Heq.
  apply (f_equal list_ascii_of_string) in Heq.
  rewrite !list_ascii_of_string_of_list_ascii in Heq.
  apply (f_equal decode) in Heq.
  rewrite !decode_encode in Heq by apply bytes_of_bounded.
  injection Heq as Heq. by apply bytes_of_inj.
Qed.

Lemma read_utf8_app c rest :
  (c < 1114112)%N -> read_utf8 (utf8 c ++ rest) = c :: read_utf8 rest.
Proof.
  intros Hc. unfold utf8.
  destruct (N.ltb_spec c 128).
  { cbn [app read_utf8]. destruct (N.ltb_spec c 128); [done | lia]. }
  destruct (N.ltb_spec c 2048).
  { cbn [app read_utf8].
    destruct (N.ltb_spec (192 + c / 64) 128); [bytes_arith |].
    destruct (N.ltb_spec (192 + c / 64) 224); [| bytes_arith].
    f_equal. bytes_arith. }
  destruct (N.ltb_spec c 65536).
  { cbn [app read_utf8].
    destruct (N.ltb_spec (224 + c / 4096) 128); [bytes_arith |].
    destruct (N.ltb_spec (224 + c / 4096) 224); [bytes_arith |].
    destruct (N.ltb_spec (224 + c / 4096) 240); [| bytes_arith].
    f_equal. bytes_arith. }
  cbn [app read_utf8].
  destruct (N.ltb_spec (240 + c / 262144) 128); [bytes_arith |].
  destruct (N.ltb_spec (240 + c / 262144) 224); [bytes_arith |].
  destruct (N.ltb_spec (240 + c / 262144) 240); [bytes_arith |].
  f_equal. bytes_arith.
Qed.

Lemma read_utf8_flat_map cps :
  Forall (fun c => (c < 1114112)%N) cps ->
  read_utf8 (flat_map utf8 cps) = cps.
Proof.
  induction 1 as [| c cps Hc _ IH]; [done |].
  cbn [flat_map]. rewrite read_utf8_app by done. by rewrite IH.
Qed.

Lemma utf8_bounded c :
  (c < 1114112)%N -> Forall (fun b => (b < 256)%N) (utf8 c).
Proof.
  intros Hc. unfold utf8.
  destruct (N.ltb_spec c 128); [repeat constructor; lia |].
  destruct (N.ltb_spec c 2048); [repeat constructor; bytes_arith |].
  destruct (N.ltb_spec c 65536); repeat constructor; bytes_arith.
Qed.

Lemma flat_map_utf8_bounded cps :
  Forall (fun c => (c < 1114112)%N) cps ->
  Forall (fun b => (b < 256)%N) (flat_map utf8 cps).
Proof.
  induction 1 as [| c cps Hc _ IH]; [constructor |].
  cbn [flat_map]. apply Forall_app. split; [by apply utf8_bounded | done].
Qed.

(** The code points of a well-formed string are code points, and give
    its code units back. *)
Lemma code_points_well_formed units :
  well_formed units = true ->
  Forall (fun c => (c < 1114112)%N) (code_points units)
  /\ flat_map units_of (code_points units) = units.
Proof.
  revert units. fix IH 1. intros [| u rest]; [done |].
  cbn [well_formed code_points].
  destruct (is_high u) eqn:Hh.
  - destruct rest as [| l rest']; [done |].
    destruct (is_low l) eqn:Hl; [| done]. cbn [andb]. intros Hwf.
    destruct (IH rest' Hwf) as [Hb Hr].
    unfold is_high, is_low in *.
    apply andb_true_iff in Hh as [?%N.leb_le ?%N.leb_le].
    apply andb_true_iff in Hl as [?%N.leb_le ?%N.leb_le].
    split; [constructor; [lia | done] |].
    cbn [flat_map]. rewrite Hr. unfold units_of.
    destruct (N.ltb_spec (65536 + (u - 55296) * 1024 + (l - 56320)) 65536);
      [lia |].
    cbn [app]. f_equal; [bytes_arith |]. f_equal. bytes_arith.
  - destruct (is_low u) eqn:Hl; [done |]. cbn [negb andb].
    destruct (N.ltb_spec u 65536); [| done]. cbn [andb]. intros Hwf.
    destruct (IH rest Hwf) as [Hb Hr].
    split; [constructor; [lia | done] |].
    cbn [flat_map]. rewrite Hr. unfold units_of.
    destruct (N.ltb_spec u 65536); [done | lia].
Qed.

Lemma map_ascii_of_N_inj (l1 l2 : list N) :
  Forall (fun b => (b < 256)%N) l1 ->
  Forall (fun b => (b < 256)%N) l2 ->
  map ascii_of_N l1 = map ascii_of_N l2 -> l1 = l2.
Proof.
  intros H1 H2 Heq. apply (f_equal (map N_of_ascii)) in Heq.
  rewrite !map_map in Heq.
  assert (forall l, Forall (fun b => (b < 256)%N) l ->
            map (fun b => N_of_ascii (ascii_of_N b)) l = l) as Hid.
  { induction 1 as [| b l Hb _ IH]; [done |].
    cbn [map]. by rewrite N_ascii_embedding, IH. }
  by rewrite !Hid in Heq.
Qed.

(** X16. The identifier of a path is the base 64 text of its UTF-8 bytes
    and gives them back: two JavaScript strings have the same
    identifier exactly when [Buffer.from] encodes them to the same
    bytes.  So well-formed strings, in which every surrogate is half of
    a pair, have different identifiers when they differ.  Strings with
    an unpaired surrogate can share one, each such surrogate being
    encoded as U+FFFD. *)
Theorem generateImageId_js_injective (s t : list N) :
  (generateImageId_js s = generateImageId_js t
   <-> Buffer_from s = Buffer_from t)
  /\ (well_formed s = true -> well_formed t = true ->
      generateImageId_js s = generateImageId_js t -> s = t).
Proof.
  unfold generateImageId_js.
  split; [split; [apply generateImageId_same_bytes | by intros ->] |].
  intros Hs Ht Heq. apply generateImageId_same_bytes in Heq.
  destruct (code_points_well_formed s Hs) as [Hbs Hrs].
  destruct (code_points_well_formed t Ht) as [Hbt Hrt].
  unfold Buffer_from in Heq.
  apply (f_equal list_ascii_of_string) in Heq.
  rewrite !list_ascii_of_string_of_list_ascii in Heq.
  apply map_ascii_of_N_inj in Heq; try by apply flat_map_utf8_bounded.
  apply (f_equal read_utf8) in Heq.
  rewrite !read_utf8_flat_map in Heq by done.
  by rewrite <- Hrs, <- Hrt, Heq.
Qed.

Lemma length_string_of_list_ascii (l : list ascii) :
  String.length (string_of_list_ascii l) = length l.
Proof. induction l as [| a l IH]; simpl; congruence. Qed.

Lemma length_list_ascii_of_string (s : string) :
  length (list_ascii_of_string s) = String.length s.
Proof. induction s as [| a s IH]; simpl; congruence. Qed.

Lemma encode_shape (bytes : list N) :
  Forall (fun c => In c alphabet) (encode bytes)
  /\ length (encode bytes) = ((4 * length bytes + 2) / 3)%nat.
Proof.
  induction bytes as [| b0 | b0 b1 | b0 b1 b2 rest [IHa IHl]] using list_ind3.
  - split; [constructor | reflexivity].
  - split; [| reflexivity]. cbn [encode].
    do 2 (constructor; [apply digit_in_alphabet |]). constructor.
  - split; [| reflexivity]. cbn [encode].
    do 3 (constructor; [apply digit_in_alphabet |]). constructor.
  - split.
    + cbn [encode]. do 4 (constructor; [apply digit_in_alphabet |]). done.
    + cbn [encode length]. rewrite IHl.
      replace (4 * S (S (S (length rest))) + 2)%nat
        with (4 * length rest + 2 + 4 * 3)%nat by lia.
      rewrite Nat.div_add by lia. lia.
Qed.

(** X17. An identifier is made of letters, digits, [-] and [_] only, without
    padding: a path of [n] bytes has an identifier of [(4n + 2) / 3]
    characters, rounded down. *)
Theorem generateImageId_shape (p : string) :
  Forall (fun c => In c alphabet)
         (list_ascii_of_string (generateImageId p))
  /\ String.length (generateImageId p)
     = ((4 * String.length p + 2) / 3)%nat.
Proof.
  unfold generateImageId.
  rewrite list_ascii_of_string_of_list_ascii, length_string_of_list_ascii.
  destruct (encode_shape (bytes_of p)) as [Ha Hl].
  split; [done |]. rewrite Hl. unfold bytes_of.
  by rewrite length_map, length_list_ascii_of_string.
Qed.

End ImageIdProperties.

(** The identifier of the sample image, letter by letter in code units,
    and of a path with an accented letter and one beyond the basic
    plane. *)
Lemma generateImageId_js_injective_witness :
  ImageId.generateImageId_js
    [47; 115; 105; 116; 101; 47; 112; 117; 98; 108; 105; 99; 47; 116; 101;
     115; 116; 46; 106; 112; 103]%N
  = ImageId.generateImageId "/site/public/test.jpg"
  /\ ImageId.generateImageId_js [47; 233; 55357; 56832]%N = "L8Op8J-YgA"
  /\ [47; 233; 55357; 56832]%N = [47; 233; 55357; 56832]%N.
Proof.
  split; [reflexivity |]. split; [reflexivity |].
  apply (generateImageId_js_injective [47; 233; 55357; 56832]%N
           [47; 233; 55357; 56832]%N); reflexivity.
Defined.

(** Two different strings with one identifier: a high and a low
    surrogate on their own. *)
Example unpaired_surrogates_share_an_identifier :
  ImageId.generateImageId_js [55296%N] = "77-9"
  /\ ImageId.generateImageId_js [56320%N] = "77-9"
  /\ [55296%N] <> [56320%N].
Proof. split; [reflexivity |]. split; [reflexivity | discriminate]. Qed.

(** ** The orchestrator: what a pass keeps *)
Section PassProperties.
Import Utils Plugin Invariant.

Variable cwd : string.
Variable fs : Processor.filesystem.
Variable clock : nat -> Z.
Variable opts : options.

Local Abbreviation processImage := (Plugin.processImage cwd fs clock opts).
Local Abbreviation processContent := (Plugin.processContent cwd fs clock opts).
Local Abbreviation processVisits := (Plugin.processVisits cwd fs clock opts).
Local Abbreviation visit := (Plugin.visit cwd fs clock opts).
Local Abbreviation cache_get := (Plugin.cache_get clock).
Local Abbreviation cache_has := (Plugin.cache_has clock).

Lemma cache_get_shape key w r w' :
  cache_get key w = (r, w') ->
  heap w' = heap w /\ processed w' = processed w
  /\ errors w' = errors w /\ calls w' = calls w
  /\ (ticks w <= ticks w')%nat
  /\ match r with
     | Some d =>
         cache w' = cache w
         /\ exists e, Cache.store (cache w) !! key = Some e
                      /\ Cache.value e = d
     | None =>
         forall key' e, Cache.store (cache w') !! key' = Some e ->
                        Cache.store (cache w) !! key' = Some e
     end.
Proof.
  unfold Plugin.cache_get, Cache.get, Cache.delete.
  destruct (Cache.store (cache w) !! key) as [e |] eqn:Hk.
  - destruct (Cache.keyvExpired (cache w) (clock (ticks w))
                                (Cache.timestamp e)).
    { intros [= <- <-]. simpl. split_and!; try done; try lia.
      intros key' e'. rewrite lookup_delete.
      by destruct (decide (key = key')). }
    destruct (Cache.isExpired (cache w) (clock (ticks w)) (Cache.timestamp e)).
    + intros [= <- <-]. simpl. split_and!; try done; try lia.
      intros key' e'. rewrite lookup_delete.
      by destruct (decide (key = key')).
    + intros [= <- <-]. simpl. split_and!; try done; try lia.
      by exists e.
  - intros [= <- <-]. split_and!; done.
Qed.

Lemma attrs_of_frame w w' : heap w' = heap w -> forall j, attrs_of w' j = attrs_of w j.
Proof. intros Hh j. unfold attrs_of. by rewrite Hh. Qed.

Lemma failure_record_intro src detail :
  failure_record
    (ErrorRecord ("Failed to process image " +:+ src +:+ ": " +:+ detail)).
Proof. unfold failure_record. simpl message. apply prefix_append. Qed.

Ltac trivial_part :=
  simpl; rewrite ?app_nil_r;
  first [done | lia | by constructor | congruence | idtac].

(** Every call of [#processImage] ends in one of the three ways. *)
Lemma processImage_outcome i ctx w : outcome i w (processImage i ctx w).
Proof.
  assert (outcome i w w) as Hsame.
  { apply (Untouched i w w [] []); trivial_part. }
  unfold Plugin.processImage.
  destruct (attrs_of w i !! "src") as [src |] eqn:Hsrc; [| done].
  destruct (attr_truthy (Some src)) eqn:Htruthy; [| done].
  destruct (processed_has src w) eqn:Hnew; [done |]. simpl.
  unfold Plugin.processImage_try.
  destruct (resolvePublicPath cwd src ctx) as [msg | imagePath] eqn:Hres.
  { apply (Untouched i w _
             [ErrorRecord ("Failed to process image " +:+ attr_to_string src
                           +:+ ": " +:+ msg)] []); trivial_part.
    repeat constructor. apply failure_record_intro. }
  destruct src as [s | z]; [| done].
  assert (s <> "") as Hs by (intros ->; done).
  unfold Plugin.cache_has.
  destruct (cache_get ("image:" +:+ imagePath) w) as [r1 w1] eqn:Hget1.
  apply cache_get_shape in Hget1 as (Hh1 & Hp1 & He1 & Hc1 & _ & Hr1).
  destruct r1 as [d1 |].
  - destruct Hr1 as [Hcache1 _].
    destruct (cache_get ("image:" +:+ imagePath) w1) as [r2 w2] eqn:Hget2.
    apply cache_get_shape in Hget2 as (Hh2 & Hp2 & He2 & Hc2 & _ & Hr2).
    assert (forall j, attrs_of w2 j = attrs_of w j) as Hframe.
    { intros j. rewrite (attrs_of_frame w1 w2) by done.
      by apply attrs_of_frame. }
    destruct r2 as [d2 |].
    + destruct Hr2 as [Hcache2 (e & Hk & <-)].
      apply (Merged i w _ ("image:" +:+ imagePath) e);
        [ by rewrite <- Hcache1
        | rewrite attrs_of_set_attrs, decide_True by done;
          simpl; by rewrite Hframe
        | intros j Hj; rewrite attrs_of_set_attrs, decide_False by done;
          apply Hframe
        | simpl; congruence
        | simpl; congruence
        | simpl; congruence
        | simpl; congruence ].
    + apply (Untouched i w _ [] []);
        [ intros j; rewrite attrs_of_set_attrs;
          destruct (decide (i = j)) as [<- |]; simpl; apply Hframe
        | simpl; congruence
        | intros key e Hk; apply Hr2 in Hk; by rewrite <- Hcache1
        | simpl; rewrite app_nil_r; congruence
        | simpl; lia
        | constructor
        | simpl; rewrite app_nil_r; congruence
        | simpl; lia ].
  - destruct (Processor.process _ fs imagePath _) as [msg | r] eqn:Hproc.
    + apply (Untouched i w _
               [ErrorRecord ("Failed to process image " +:+ s
                             +:+ ": " +:+ msg)] [imagePath]);
        [ by apply attrs_of_frame
        | done
        | done
        | simpl; by rewrite He1
        | simpl; lia
        | repeat constructor; apply failure_record_intro
        | simpl; by rewrite Hc1
        | simpl; lia ].
    + assert (attrs_of (log_call imagePath w1) i = attrs_of w i) as Ha
        by (unfold attrs_of; simpl; by rewrite Hh1).
      rewrite Ha.
      apply (Generated i w _ s ("image:" +:+ imagePath) imagePath r
               (clock (ticks w1)));
        [ done
        | done
        | by rewrite attrs_of_set_attrs, decide_True
        | intros j Hj; rewrite attrs_of_set_attrs, decide_False by done;
          unfold attrs_of; simpl; by rewrite Hh1
        | simpl; by rewrite Hp1
        | rewrite attrs_of_set_attrs, decide_True by done;
          apply lookup_insert_eq
        | intros key' e Hne; simpl; rewrite lookup_insert_ne by done;
          apply Hr1
        | simpl; by rewrite He1
        | simpl; by rewrite Hc1 ].
Qed.

Lemma outcome_refl i w : outcome i w w.
Proof. apply (Untouched i w w [] []); trivial_part. Qed.

Lemma visit_outcome ctx v w : outcome (fst v) w (visit ctx v w).
Proof.
  unfold Plugin.visit.
  destruct (isImageNode (snd v) (attrs_of w (fst v)));
    [apply processImage_outcome | apply outcome_refl].
Qed.

Lemma visit_not_image ctx v w :
  String.eqb (snd v) "image" = false -> visit ctx v w = w.
Proof.
  intros Ht. unfold Plugin.visit, isImageNode. by rewrite Ht.
Qed.

Lemma processContent_visits content ctx w :
  processContent content ctx w
  = (content, processVisits ctx (content_visits content) w).
Proof.
  unfold Plugin.processContent, content_visits.
  destruct content as [doc |]; [| done].
  destruct (String.eqb (type doc) "doc"); [| done].
  simpl. by rewrite processNode_visits.
Qed.

(** A relation that every outcome establishes, and that is reflexive
    and transitive, holds between the worlds before and after a
    pass. *)
Lemma pass_induction (R : world -> world -> Prop) :
  (forall w, R w w) ->
  (forall w1 w2 w3, R w1 w2 -> R w2 w3 -> R w1 w3) ->
  (forall i w w', outcome i w w' -> R w w') ->
  forall content ctx w, R w (snd (processContent content ctx w)).
Proof.
  intros Hrefl Htrans Hstep content ctx w.
  rewrite processContent_visits. simpl.
  generalize (content_visits content). intros l. revert w.
  induction l as [| v l IH]; intros w; [apply Hrefl |].
  unfold Plugin.processVisits. simpl.
  apply (Htrans _ (visit ctx v w)); [| apply IH].
  apply (Hstep (fst v)). apply visit_outcome.
Qed.

Lemma processed_attrs_complete a r src : complete (processed_attrs a r src).
Proof.
  unfold complete, processedFields, processed_attrs.
  repeat (apply List.Forall_cons;
          [repeat (rewrite lookup_insert; case_decide; [by eexists |]);
           done |]).
  constructor.
Qed.

Lemma complete_union d a : complete d -> complete (d ∪ a).
Proof.
  unfold complete. intros Hd.
  eapply Forall_impl; [exact Hd |]. intros k [v Hv].
  exists v. by apply lookup_union_Some_l.
Qed.

Lemma is_Some_union_r (d a : attrs) k :
  is_Some (a !! k) -> is_Some ((d ∪ a) !! k).
Proof.
  intros [v Hv]. destruct (d !! k) as [v' |] eqn:Hd.
  - exists v'. by apply lookup_union_Some_l.
  - exists v. by rewrite lookup_union_r.
Qed.

Lemma is_Some_processed_attrs a r src k :
  is_Some (a !! k) -> is_Some (processed_attrs a r src !! k).
Proof.
  intros Hk. unfold processed_attrs.
  repeat (rewrite lookup_insert; case_decide; [by eexists |]). done.
Qed.

Lemma processed_attrs_src a r src :
  processed_attrs a r src !! "src" = a !! "src".
Proof.
  apply processed_attrs_keeps.
  repeat (apply not_elem_of_cons; split; [done |]). apply not_elem_of_nil.
Qed.

Lemma outcome_wf i w w' : cache_wf w -> outcome i w w' -> cache_wf w'.
Proof.
  intros Hwf [ne nc Hattrs Hp Hstore _ _ _ _ _
             | key e _ _ _ Hp Hcache _ _
             | s key p r T Hsrc Hs Hattr _ Hp Hkey Hothers _ _];
    intros key' e' Hk'.
  - rewrite Hp. by apply (Hwf key'), Hstore.
  - rewrite Hp. apply (Hwf key'). by rewrite <- Hcache.
  - destruct (decide (key' = key)) as [-> |].
    + rewrite Hkey in Hk'. injection Hk' as <-. simpl. rewrite Hattr.
      split; [apply processed_attrs_complete |].
      exists s. rewrite processed_attrs_src, Hp.
      split; [done |]. split; [done |].
      apply elem_of_union_l. by apply elem_of_singleton.
    + destruct (Hwf key' e') as (Hc & s' & ? & ? & ?); [by apply Hothers |].
      split; [done |]. exists s'. rewrite Hp.
      split_and!; [done.. |]. by apply elem_of_union_r.
Qed.

(** X18. The cache of a new plugin is well formed, and a pass keeps it so:
    every cached attribute map has the five processed fields and a
    [src] that is a non-empty string in [#processed]. *)
Theorem cache_stays_well_formed content ctx w :
  cache_wf w -> cache_wf (snd (processContent content ctx w)).
Proof.
  apply (pass_induction (fun w w' => cache_wf w -> cache_wf w')).
  - done.
  - intros w1 w2 w3 H12 H23 Hwf. by apply H23, H12.
  - intros i w1 w2 Hout Hwf. by apply (outcome_wf i w1).
Qed.

Lemma init_cache_wf o h : cache_wf (init o h).
Proof. intros key e Hk. simpl in Hk. by rewrite lookup_empty in Hk. Qed.

(** X19. A pass never leaves a node half rewritten: every node ends with the
    attributes it had, or with all five processed fields. *)
Theorem never_a_partial_merge content ctx w i :
  cache_wf w ->
  let w' := snd (processContent content ctx w) in
  attrs_of w' i = attrs_of w i \/ complete (attrs_of w' i).
Proof.
  intros Hwf. simpl.
  apply (pass_induction
           (fun w w' => cache_wf w ->
              cache_wf w'
              /\ forall i, (attrs_of w' i = attrs_of w i
                            \/ complete (attrs_of w' i))
                           /\ (complete (attrs_of w i) ->
                               complete (attrs_of w' i))));
    [| | | exact Hwf].
  - intros w0 Hwf0. split; [done |]. intros j. split; [by left | done].
  - intros w1 w2 w3 H12 H23 Hwf1.
    destruct (H12 Hwf1) as [Hwf2 Ha]. destruct (H23 Hwf2) as [Hwf3 Hb].
    split; [done |]. intros j.
    destruct (Ha j) as [[Heq | Hc] Hkeep1], (Hb j) as [[Heq' | Hc'] Hkeep2].
    + split; [left; congruence | tauto].
    + split; [by right | tauto].
    + split; [right; by apply Hkeep2 | tauto].
    + split; [by right | tauto].
  - intros j w1 w2 Hout Hwf1. split; [by apply (outcome_wf j w1) |].
    intros k.
    destruct Hout as [ne nc Hattrs _ _ _ _ _ _ _
                     | key e Hk Hattr Hothers _ _ _ _
                     | s key p r T _ _ Hattr Hothers _ _ _ _ _].
    + rewrite Hattrs. split; [by left | done].
    + destruct (decide (k = j)) as [-> |].
      * rewrite Hattr. destruct (Hwf1 key e Hk) as [Hc _].
        split; [right |]; intros; by apply complete_union.
      * rewrite Hothers by done. split; [by left | done].
    + destruct (decide (k = j)) as [-> |].
      * rewrite Hattr.
        split; [right |]; intros; apply processed_attrs_complete.
      * rewrite Hothers by done. split; [by left | done].
Qed.

(** X20. A pass removes no attribute: a key that a node has before the pass
    it has after it. *)
Theorem attributes_are_never_removed content ctx w i k :
  is_Some (attrs_of w i !! k) ->
  is_Some (attrs_of (snd (processContent content ctx w)) i !! k).
Proof.
  revert i k.
  apply (pass_induction
           (fun w w' => forall i k, is_Some (attrs_of w i !! k) ->
                                    is_Some (attrs_of w' i !! k))).
  - done.
  - intros w1 w2 w3 H12 H23 i k Hk. by apply H23, H12.
  - intros j w1 w2 Hout i k Hk.
    destruct Hout as [ne nc Hattrs _ _ _ _ _ _ _
                     | key e _ Hattr Hothers _ _ _ _
                     | s key p r T _ _ Hattr Hothers _ _ _ _ _].
    + by rewrite Hattrs.
    + destruct (decide (i = j)) as [-> |]; [| by rewrite Hothers].
      rewrite Hattr. by apply is_Some_union_r.
    + destruct (decide (i = j)) as [-> |]; [| by rewrite Hothers].
      rewrite Hattr. by apply is_Some_processed_attrs.
Qed.

Lemma outcome_others i w w' j :
  outcome i w w' -> j <> i -> attrs_of w' j = attrs_of w j.
Proof.
  intros [ne nc Hattrs _ _ _ _ _ _ _
         | key e _ _ Hothers _ _ _ _
         | s key p r T _ _ _ Hothers _ _ _ _ _] Hne; auto.
Qed.

(** X21. A pass writes only to image nodes it visits: a node that is not in
    the document, or whose type is not ["image"], or that has no truthy
    [src], keeps its attributes. *)
Theorem only_image_nodes_are_written content ctx w i :
  (forall t, In (i, t) (content_visits content) ->
             isImageNode t (attrs_of w i) = false) ->
  attrs_of (snd (processContent content ctx w)) i = attrs_of w i.
Proof.
  rewrite processContent_visits. simpl.
  generalize (content_visits content). intros l.
  assert (forall w0, attrs_of w0 i = attrs_of w i ->
            (forall t, In (i, t) l -> isImageNode t (attrs_of w i) = false) ->
            attrs_of (processVisits ctx l w0) i = attrs_of w i) as Hgen;
    [| by apply Hgen].
  induction l as [| [j t] l IH]; intros w0 Heq Hall; [done |].
  unfold Plugin.processVisits. simpl. apply IH.
  - destruct (decide (i = j)) as [<- |].
    + unfold Plugin.visit. simpl. rewrite Heq, (Hall t) by (by left). done.
    + rewrite <- Heq.
      apply (outcome_others j w0 _ i); [| done].
      apply (visit_outcome ctx (j, t)).
  - intros u Hu. apply Hall. by right.
Qed.

Lemma image_visits_cons v l :
  image_visits (v :: l)
  = ((if String.eqb (snd v) "image" then 1 else 0) + image_visits l)%nat.
Proof.
  unfold image_visits. simpl. by destruct (String.eqb (snd v) "image").
Qed.

(** X22. A pass appends to the error collector and to the processor calls,
    at most one record and one call for each node of type ["image"] it
    visits; every record it appends begins with "Failed to process
    image "; and [#processed] only grows. *)
Theorem pass_logs_grow content ctx w :
  let w' := snd (processContent content ctx w) in
  (exists new_errors,
      errors w' = errors w ++ new_errors
      /\ Forall failure_record new_errors
      /\ (length new_errors <= image_visits (content_visits content))%nat)
  /\ (exists new_calls,
        calls w' = calls w ++ new_calls
        /\ (length new_calls <= image_visits (content_visits content))%nat)
  /\ processed w ⊆ processed w'.
Proof.
  simpl. rewrite processContent_visits. simpl.
  generalize (content_visits content). intros l. revert w.
  induction l as [| v l IH]; intros w.
  { split; [exists []; by rewrite app_nil_r |].
    split; [exists []; by rewrite app_nil_r | done]. }
  change (processVisits ctx (v :: l) w)
    with (processVisits ctx l (visit ctx v w)).
  destruct (IH (visit ctx v w)) as ((ne & He & Hf & Hle) & (nc & Hc & Hlc) & Hp).
  rewrite image_visits_cons.
  destruct (String.eqb (snd v) "image") eqn:Ht.
  - pose proof (visit_outcome ctx v w) as Hout.
    assert (exists ne1 nc1,
              errors (visit ctx v w) = errors w ++ ne1
              /\ Forall failure_record ne1 /\ (length ne1 <= 1)%nat
              /\ calls (visit ctx v w) = calls w ++ nc1
              /\ (length nc1 <= 1)%nat
              /\ processed w ⊆ processed (visit ctx v w))
      as (ne1 & nc1 & He1 & Hf1 & Hl1 & Hc1 & Hlc1 & Hp1).
    { destruct Hout as [ne1 nc1 _ Hp1 _ He1 Hl1 Hf1 Hc1 Hlc1
                       | key e _ _ _ Hp1 _ He1 Hc1
                       | s key p r T _ _ _ _ Hp1 _ _ He1 Hc1].
      - exists ne1, nc1. rewrite Hp1. done.
      - exists [], []. rewrite !app_nil_r, Hp1. split_and!; try done.
        all: simpl; lia.
      - exists [], [p]. rewrite app_nil_r, Hp1. split_and!; try done.
        + simpl; lia.
        + apply union_subseteq_r. }
    split; [| split].
    + exists (ne1 ++ ne). rewrite He, He1, app_assoc.
      split; [done |]. split; [by apply Forall_app |].
      rewrite length_app. lia.
    + exists (nc1 ++ nc). rewrite Hc, Hc1, app_assoc.
      split; [done |]. rewrite length_app. lia.
    + by transitivity (processed (visit ctx v w)).
  - rewrite (visit_not_image ctx v w Ht) in *.
    split; [by exists ne |]. split; [by exists nc | done].
Qed.

(** X23. A node with a truthy [src] keeps a truthy [src]: an image node is
    still an image node after a pass. *)
Theorem image_nodes_stay_image_nodes content ctx w i t :
  cache_wf w ->
  isImageNode t (attrs_of w i) = true ->
  isImageNode t (attrs_of (snd (processContent content ctx w)) i) = true.
Proof.
  intros Hwf. unfold isImageNode. rewrite !andb_true_iff.
  intros [Ht Hsrc]. split; [done |]. revert i Hsrc.
  apply (pass_induction
           (fun w w' => cache_wf w ->
              cache_wf w'
              /\ forall i, attr_truthy (attrs_of w i !! "src") = true ->
                           attr_truthy (attrs_of w' i !! "src") = true));
    [| | | exact Hwf].
  - done.
  - intros w1 w2 w3 H12 H23 Hwf1.
    destruct (H12 Hwf1) as [Hwf2 Ha]. destruct (H23 Hwf2) as [Hwf3 Hb].
    split; [done |]. intros j Hj. by apply Hb, Ha.
  - intros j w1 w2 Hout Hwf1. split; [by apply (outcome_wf j w1) |].
    intros k Hk.
    destruct Hout as [ne nc Hattrs _ _ _ _ _ _ _
                     | key e Hkey Hattr Hothers _ _ _ _
                     | s key p r T _ _ Hattr Hothers _ _ _ _ _].
    + by rewrite Hattrs.
    + destruct (decide (k = j)) as [-> |]; [| by rewrite Hothers].
      rewrite Hattr. destruct (Hwf1 key e Hkey) as (_ & s & Hs & Hne & _).
      rewrite (lookup_union_Some_l _ _ _ _ Hs). simpl.
      apply negb_true_iff. by apply String.eqb_neq.
    + destruct (decide (k = j)) as [-> |]; [| by rewrite Hothers].
      by rewrite Hattr, processed_attrs_src.
Qed.

(** X25. When every image node that a pass would visit carries a source that
    is in [#processed], the pass does nothing at all: no attribute, no
    cache entry, no error, no processor call and no clock reading
    changes. The cache is not consulted, so this holds also when its
    entries have expired. *)
Theorem settled_pass_does_nothing content ctx w :
  (forall i t, In (i, t) (content_visits content) ->
     isImageNode t (attrs_of w i) = true ->
     exists s, attrs_of w i !! "src" = Some (AStr s) /\ s ∈ processed w) ->
  processContent content ctx w = (content, w).
Proof.
  intros Hall. rewrite processContent_visits.
  by rewrite processVisits_all_processed.
Qed.

(** X24. A successful generation writes the same attribute map to the node
    and to the cache, under the key of the resolved path and with the
    time of the write; the map has the five processed fields, with
    [originalSrc] the node's source, which is then in [#processed]. *)
Theorem generated_is_cached i ctx w s imagePath w1 r :
  attrs_of w i !! "src" = Some (AStr s) ->
  attr_truthy (Some (AStr s)) = true ->
  processed_has (AStr s) w = false ->
  resolvePublicPath cwd (AStr s) ctx = inr imagePath ->
  cache_has ("image:" +:+ imagePath) w = (false, w1) ->
  Processor.process (processorOptions opts) fs imagePath
    (Path.join [resourcePath ctx; ".."; outputDir opts]) = inr r ->
  let w' := processImage i ctx w in
  Cache.store (cache w') !! ("image:" +:+ imagePath)
  = Some (Cache.Entry (attrs_of w' i) (clock (ticks w1)))
  /\ complete (attrs_of w' i)
  /\ attrs_of w' i !! "originalSrc" = Some (AStr s)
  /\ attrs_of w' i !! "width" = Some (ANum (Processor.width r))
  /\ attrs_of w' i !! "height" = Some (ANum (Processor.height r))
  /\ s ∈ processed w'.
Proof.
  intros Hsrc Htruthy Hnew Hres Hhas Hproc w'. subst w'.
  rewrite (processImage_generated cwd fs clock opts i ctx w (AStr s)
             imagePath w1 r) by assumption.
  rewrite attrs_of_set_attrs, decide_True by done.
  split; [simpl; apply lookup_insert_eq |].
  split; [apply processed_attrs_complete |].
  unfold processed_attrs.
  split; [apply lookup_insert_eq |].
  split; [by rewrite !lookup_insert_ne, lookup_insert_eq by done |].
  split; [by rewrite lookup_insert_ne, lookup_insert_eq by done |].
  simpl. apply elem_of_union_l. by apply elem_of_singleton.
Qed.

End PassProperties.

(** ** Runs of the further properties on the sample site *)
Section PassRuns.
Import Utils Plugin Invariant Sample.

Lemma in_processed_after_twins :
  "/test.jpg" ∈ processed (run clock twins (init opts twins_heap)).
Proof. apply (bool_decide_eq_true_1 _). vm_compute. reflexivity. Qed.

Lemma cache_stays_well_formed_witness :
  cache_wf (run clock twins (init opts twins_heap)).
Proof.
  apply (cache_stays_well_formed cwd fs clock opts (Some twins) ctx).
  apply init_cache_wf.
Defined.

Lemma never_a_partial_merge_witness :
  let w := init opts broken_heap in
  (attrs_of (run clock twins w) 1 = attrs_of w 1
   \/ complete (attrs_of (run clock twins w) 1))
  /\ (attrs_of (run clock twins w) 2 = attrs_of w 2
      \/ complete (attrs_of (run clock twins w) 2)).
Proof.
  intros w. split.
  - apply (never_a_partial_merge cwd fs clock opts (Some twins) ctx w 1).
    apply init_cache_wf.
  - apply (never_a_partial_merge cwd fs clock opts (Some twins) ctx w 2).
    apply init_cache_wf.
Defined.

Lemma attributes_are_never_removed_witness :
  is_Some (attrs_of (run clock twins (init opts alias_heap)) 2 !! "title").
Proof.
  apply (attributes_are_never_removed cwd fs clock opts (Some twins) ctx
           (init opts alias_heap) 2 "title").
  eexists. vm_compute. reflexivity.
Defined.

Lemma only_image_nodes_are_written_witness :
  attrs_of (run clock page (init opts twins_heap)) 2
  = attrs_of (init opts twins_heap) 2.
Proof.
  apply (only_image_nodes_are_written cwd fs clock opts (Some page) ctx
           (init opts twins_heap) 2).
  intros t [[=] | [[=] | []]].
Defined.

Lemma image_nodes_stay_image_nodes_witness :
  isImageNode "image" (attrs_of (run clock twins (init opts alias_heap)) 2)
  = true.
Proof.
  apply (image_nodes_stay_image_nodes cwd fs clock opts (Some twins) ctx
           (init opts alias_heap) 2 "image").
  - apply init_cache_wf.
  - vm_compute. reflexivity.
Defined.

Lemma generated_is_cached_witness :
  let w := init opts twins_heap in
  let w' := processImage cwd fs clock opts 1 ctx w in
  Cache.store (cache w') !! "image:/site/public/test.jpg"
  = Some (Cache.Entry (attrs_of w' 1) 0)
  /\ complete (attrs_of w' 1)
  /\ attrs_of w' 1 !! "originalSrc" = Some (AStr "/test.jpg").
Proof.
  intros w w'.
  destruct (generated_is_cached cwd fs clock opts 1 ctx w "/test.jpg"
              "/site/public/test.jpg" w Sample.result)
    as (Hentry & Hcomplete & Horiginal & _);
    try (vm_compute; reflexivity).
  split; [exact Hentry |]. split; [exact Hcomplete | exact Horiginal].
Defined.

Lemma settled_pass_does_nothing_witness :
  let w := run clock twins (init opts twins_heap) in
  processContent cwd fs clock opts (Some twins) ctx w = (Some twins, w).
Proof.
  intros w.
  apply (settled_pass_does_nothing cwd fs clock opts (Some twins) ctx w).
  intros i t Hin Himg. exists "/test.jpg".
  destruct Hin as [[= <- <-] | [[= <- <-] | [[= <- <-] | []]]].
  - vm_compute in Himg. discriminate.
  - split; [vm_compute; reflexivity | apply in_processed_after_twins].
  - split; [vm_compute; reflexivity | apply in_processed_after_twins].
Defined.

End PassRuns.
